(** * miniqueue: broker, wake signals and the streaming protocol handler

    A shallow embedding of the broker and of [server.go]:
    the consumer registry with its wake-up scan, and the command loop that
    drives one consumer over a long-lived HTTP connection. *)

From Stdlib Require Import List Bool Arith Lia.
From stdpp Require Import base option list strings gmap fin_maps.

Local Open Scope string_scope.
Local Open Scope list_scope.

(** ** Go values shared by both files *)

(** [type value = []byte] *)
Definition value := list Byte.byte.

(** Go [error] values.  [serverError] is the string type declared in
    server.go; the other two shapes stand for errors built elsewhere
    ([errors.New] and [fmt.Errorf] with [%w]), which are pointer types and
    therefore never [==] to a [serverError]. *)
Inductive goerror : Type :=
| serverError (s : string)
| errorString (s : string)
| wrapError (msg : string) (inner : goerror).

(** [func (e serverError) Error() string], and the [Error] method of the
    library errors. *)
Definition Error (e : goerror) : string :=
  match e with
  | serverError s => s
  | errorString s => s
  | wrapError msg _ => msg
  end.

(** [errors.Is(err, target)] for a [serverError] target: walk the [Unwrap]
    chain and compare with [==]. *)
Fixpoint chain_Is (e : goerror) (target : string) : bool :=
  match e with
  | serverError s => String.eqb s target
  | errorString _ => false
  | wrapError _ inner => chain_Is inner target
  end.

Definition errors_Is (err : option goerror) (target : string) : bool :=
  match err with
  | None => false
  | Some e => chain_Is e target
  end.

Definition errInvalidTopicValue := serverError "invalid topic value".
Definition errReadBody := serverError "error reading the request body".
Definition errPublish := serverError "error publishing to broker".
Definition errNextValue := serverError "error getting next value for consumer".
Definition errAck := serverError "error ACKing message".
Definition errNack := serverError "error NACKing message".
Definition errDecodingCmd := serverError "error decoding command".
Definition errRequestCancelled := serverError "request context cancelled".

Definition CmdInit := "INIT".
Definition CmdAck := "ACK".
Definition CmdNack := "NACK".

(** [strings.Contains(s, substr)]: some suffix of [s] starts with [substr]. *)
Fixpoint Contains (s substr : string) : bool :=
  String.prefix substr s ||
  match s with
  | EmptyString => false
  | String _ s' => Contains s' substr
  end.

(** [sub] occurs somewhere in [s]. *)
Definition occurs_in (sub s : string) : Prop :=
  ∃ pre post, s = pre +:+ sub +:+ post.

(** [func isDisconnect(err error) bool] *)
Definition isDisconnect (err : option goerror) : bool :=
  match err with
  | None => false
  | Some e => Contains (Error e) "client disconnected" || Contains (Error e) "; CANCEL"
  end.

(** ** Channels *)

(** Modelled from the spec: [eventType] and its constant
    [eventTypePublish] are declared with the consumer, outside the two
    files embedded here; the broker only ever sends the publish event on a
    wake signal. *)
Inductive eventType : Type := eventTypePublish.

(** The part of a Go channel ([runtime.hchan]) that a send looks at: its
    buffer size, the buffered elements, the number of receivers parked on
    it, and the values already handed to receivers. *)
Record chan : Type := mkChan {
  dataqsiz : nat;
  qbuf : list eventType;
  recvq : nat;
  handed : list eventType
}.

(** [make(chan eventType)]: no buffer. *)
Definition make_chan : chan :=
  {| dataqsiz := 0; qbuf := []; recvq := 0; handed := [] |}.

(** One [select { case ch <- ev: ...; default: }]: [runtime.chansend] with
    [block = false].  A parked receiver takes the value directly; otherwise
    the value is buffered when there is room; otherwise the default arm
    runs.  The boolean tells whether the send arm was taken. *)
Definition try_send (ev : eventType) (ch : chan) : bool * chan :=
  match recvq ch with
  | S n =>
      (true, {| dataqsiz := dataqsiz ch; qbuf := qbuf ch; recvq := n;
                handed := handed ch ++ [ev] |})
  | O =>
      if Nat.ltb (List.length (qbuf ch)) (dataqsiz ch)
      then (true, {| dataqsiz := dataqsiz ch; qbuf := qbuf ch ++ [ev];
                     recvq := 0; handed := handed ch |})
      else (false, ch)
  end.

(** Modelled from the spec: the receiving side lives in the consumer's
    [Next], whose file is absent ("block until the consumer's wake signal
    fires").  A receive takes a buffered value when there is one and parks
    otherwise. *)
Definition park_recv (ch : chan) : chan :=
  match qbuf ch with
  | ev :: q =>
      {| dataqsiz := dataqsiz ch; qbuf := q; recvq := recvq ch;
         handed := handed ch ++ [ev] |}
  | [] =>
      {| dataqsiz := dataqsiz ch; qbuf := []; recvq := S (recvq ch);
         handed := handed ch |}
  end.

(** [type consumer struct], with the fields [Subscribe] fills in.  The
    fields [store] and [notifier] point back to the broker that made the
    consumer and are left implicit; [eventChan] is the address of the
    channel in the heap of channels. *)
Record consumer : Type := mkConsumer {
  id : nat;
  topic : string;
  eventChan : nat
}.

Module Broker.

(** ** The store interface *)

(** The two methods of [storer] that the broker calls.  A store threads its
    own state; [None] is Go's [nil] error. *)
Class storer (S : Type) : Type := {
  Insert : string → value → S → option goerror * S;
  Close : S → option goerror * S
}.

(** ** sync.RWMutex, sequentially *)

Inductive rwmutex : Type :=
| Unlocked
| RLocked (readers : nat)   (* [S readers] read locks are held *)
| WLocked.

(** Each operation answers [None] where the Go call would not return
    (a lock that is not available) or would crash (unlocking a lock that is
    not held). *)
Definition Lock (m : rwmutex) : option rwmutex :=
  match m with Unlocked => Some WLocked | _ => None end.

Definition Unlock (m : rwmutex) : option rwmutex :=
  match m with WLocked => Some Unlocked | _ => None end.

Definition RLock (m : rwmutex) : option rwmutex :=
  match m with
  | Unlocked => Some (RLocked 0)
  | RLocked n => Some (RLocked (S n))
  | WLocked => None
  end.

Definition RUnlock (m : rwmutex) : option rwmutex :=
  match m with
  | RLocked 0 => Some Unlocked
  | RLocked (S n) => Some (RLocked n)
  | _ => None
  end.

(** ** The broker *)

Section Broker.
Context {S : Type} `{!storer S}.

(** [type broker struct], together with the two pieces of process state
    its methods reach: the heap of channels and the [xid] generator. *)
Record broker : Type := mkBroker {
  store : S;
  consumers : gmap string (list consumer);
  mu : rwmutex;
  chans : gmap nat chan;
  xids : nat
}.

Definition newBroker (st : S) : broker :=
  {| store := st; consumers := ∅; mu := Unlocked; chans := ∅; xids := 0 |}.

(** [b.consumers[topic]]: a missing key reads as the nil slice. *)
Definition consumers_of (b : broker) (t : string) : list consumer :=
  default [] (consumers b !! t).

Definition set_mu (m : rwmutex) (b : broker) : broker :=
  {| store := store b; consumers := consumers b; mu := m;
     chans := chans b; xids := xids b |}.

Definition set_chans (h : gmap nat chan) (b : broker) : broker :=
  {| store := store b; consumers := consumers b; mu := mu b;
     chans := h; xids := xids b |}.

Definition set_store (st : S) (b : broker) : broker :=
  {| store := st; consumers := consumers b; mu := mu b;
     chans := chans b; xids := xids b |}.

(** The body of [Subscribe] between [b.Lock()] and the deferred
    [b.Unlock()]. *)
Definition register (t : string) (b : broker) : consumer * broker :=
  let a := fresh (dom (chans b)) in
  let c := {| id := xids b; topic := t; eventChan := a |} in
  (c,
   {| store := store b;
      consumers := <[t := consumers_of b t ++ [c]]> (consumers b);
      mu := mu b;
      chans := <[a := make_chan]> (chans b);
      xids := Datatypes.S (xids b) |}).

Definition Subscribe (t : string) (b : broker) : option (consumer * broker) :=
  m1 ← Lock (mu b);
  let '(c, b1) := register t (set_mu m1 b) in
  m2 ← Unlock (mu b1);
  Some (c, set_mu m2 b1).

(** The [for _, c := range b.consumers[topic]] loop of [NotifyConsumer].
    A send on a channel that does not exist never proceeds, so the default
    arm runs for it. *)
Fixpoint notify_scan (ev : eventType) (cs : list consumer)
    (h : gmap nat chan) : gmap nat chan :=
  match cs with
  | [] => h
  | c :: cs' =>
      match h !! eventChan c with
      | Some ch =>
          let '(sent, ch') := try_send ev ch in
          if sent then <[eventChan c := ch']> h
          else notify_scan ev cs' h
      | None => notify_scan ev cs' h
      end
  end.

Definition NotifyConsumer (t : string) (ev : eventType) (b : broker)
    : option broker :=
  m1 ← RLock (mu b);
  let b1 := set_mu m1 b in
  let b2 := set_chans (notify_scan ev (consumers_of b1 t) (chans b1)) b1 in
  m2 ← RUnlock (mu b2);
  Some (set_mu m2 b2).

Definition Publish (t : string) (val : value) (b : broker)
    : option (option goerror * broker) :=
  match Insert t val (store b) with
  | (Some err, st) => Some (Some err, set_store st b)
  | (None, st) =>
      b' ← NotifyConsumer t eventTypePublish (set_store st b);
      Some (None, b')
  end.

Definition Shutdown (b : broker) : option goerror * broker :=
  let '(err, st) := Close (store b) in (err, set_store st b).

(** *** Runs of the broker *)

(** Modelled from the spec: a consumer that finds its topic empty waits
    on its wake signal; the code of that wait is in the absent consumer
    file.  [a] is the address of the consumer's channel. *)
Definition await (a : nat) (b : broker) : broker :=
  set_chans (alter park_recv a (chans b)) b.

(** What can happen to a broker: a call of one of its four methods, or a
    consumer starting to wait. *)
Inductive op : Type :=
| opPublish (t : string) (val : value)
| opSubscribe (t : string)
| opShutdown
| opNotify (t : string) (ev : eventType)
| opAwait (a : nat).

Definition step (o : op) (b : broker) : option broker :=
  match o with
  | opPublish t val => snd <$> Publish t val b
  | opSubscribe t => snd <$> Subscribe t b
  | opShutdown => Some (snd (Shutdown b))
  | opNotify t ev => NotifyConsumer t ev b
  | opAwait a => Some (await a b)
  end.

Fixpoint run_ops (os : list op) (b : broker) : option broker :=
  match os with
  | [] => Some b
  | o :: os' => b' ← step o b; run_ops os' b'
  end.

(** A consumer is awaiting when a receiver is parked on its channel. *)
Definition awaiting (h : gmap nat chan) (c : consumer) : bool :=
  match h !! eventChan c with
  | Some ch => negb (Nat.eqb (recvq ch) 0)
  | None => false
  end.

(** Every channel of the heap was made without a buffer. *)
Definition unbuffered (h : gmap nat chan) : Prop :=
  ∀ a ch, h !! a = Some ch → dataqsiz ch = 0 ∧ qbuf ch = [].

(** Between two operations the lock is free and no channel has a
    buffer. *)
Definition settled (b : broker) : Prop :=
  mu b = Unlocked ∧ unbuffered (chans b).

(** *** The registry as a whole *)

(** [c] sits at index [i] of the slice of topic [t]. *)
Definition registered (b : broker) (t : string) (i : nat) (c : consumer)
    : Prop :=
  consumers_of b t !! i = Some c.

(** Every entry of the registry carries the topic it is filed under and a
    channel that exists, and no channel serves two entries. *)
Definition registry_wf (b : broker) : Prop :=
  (∀ t i c, registered b t i c →
     topic c = t ∧ is_Some (chans b !! eventChan c))
  ∧ (∀ t1 i1 c1 t2 i2 c2,
       registered b t1 i1 c1 → registered b t2 i2 c2 →
       eventChan c1 = eventChan c2 → t1 = t2 ∧ i1 = i2).

(** The receivers parked on the channels of the consumers [cs]. *)
Definition parked (h : gmap nat chan) (cs : list consumer) : nat :=
  sum_list_with (λ c, from_option recvq 0 (h !! eventChan c)) cs.

End Broker.

Arguments broker S : clear implicits.

(** The claim's words for a wake signal, "single-slot": one wake fits in
    the buffer. *)
Definition make_chan_single_slot : chan :=
  {| dataqsiz := 1; qbuf := []; recvq := 0; handed := [] |}.

(** What a single-slot signal does for a consumer that is not receiving:
    the first send is taken and sits in the slot, and a further send, the
    slot being full, is dropped. *)
Definition buffers_one_wake (ch : chan) : Prop :=
  ∃ ch1, try_send eventTypePublish ch = (true, ch1)
       ∧ qbuf ch1 = [eventTypePublish]
       ∧ try_send eventTypePublish ch1 = (false, ch1).

End Broker.

(** ** The HTTP handlers of server.go *)

Module Server.

(** What a handler does to the outside, in order. *)
Inductive level : Type := Debug | Info | Warn | Err.

Inductive call : Type := callNext | callAck | callNack | callPublish | callSubscribe.

(** Modelled from the spec: [respondError] and [respondMsg] are defined in
    a file that is absent.  "Response body is a streamed sequence of
    JSON-encoded frames, each either the raw message payload or an error
    object" with the single field [error]. *)
Inductive frame : Type :=
| msgFrame (msg : value)
| errorFrame (msg : string).

Inductive effect : Type :=
| effLog (l : level) (err : option goerror) (msg : string)
| effCall (c : call)
| effHeader (status : nat)          (* [w.WriteHeader(status)] *)
| effWrite (f : frame)              (* one [enc.Encode] on the response *)
| effCloseBody.                     (* the deferred [r.Body.Close()] *)

Definition StatusCreated := 201.
Definition StatusBadRequest := 400.
Definition StatusInternalServerError := 500.

Definition topicVarKey := "topic".

(** [type brokerer interface] *)
Class brokerer (W : Type) : Type := {
  Publish : string → value → W → option goerror * W;
  Subscribe : string → W → consumer * W
}.

(** The methods of [*consumer] that the handler calls; their file is
    absent, so the handler is read against any implementation.  [Ctx] is
    [context.Context]. *)
Class consumerMethods (W Ctx : Type) : Type := {
  Next : consumer → Ctx → W → (value * option goerror) * W;
  Ack : consumer → W → option goerror * W;
  Nack : consumer → W → option goerror * W
}.

(** [*http.Request] as the handlers read it: [mux.Vars(r)], the outcome of
    [ioutil.ReadAll(r.Body)] and [r.Context()]. *)
Record request (Ctx : Type) : Type := mkRequest {
  Vars : gmap string string;
  ReadAll : value * option goerror;
  Context : Ctx
}.
Arguments Vars {Ctx} _.
Arguments ReadAll {Ctx} _.
Arguments Context {Ctx} _.

(** One result of [dec.Decode(&cmd)]: the decoded string and the error. *)
Definition read_result : Type := string * option goerror.

Inductive control : Type := Continue | Return.

(** How far the command loop got on the reads it was given. *)
Inductive outcome : Type :=
| Returned          (* the handler function has returned *)
| Decoding.         (* it sits in [dec.Decode], waiting for the client *)

Section Handlers.
Context {W Ctx : Type} `{!brokerer W} `{!consumerMethods W Ctx}.

(** The state a handler threads: everything behind the broker and the
    consumer, and what has been done to the outside so far. *)
Record hstate : Type := mkH {
  world : W;
  effects : list effect
}.

Definition handler (A : Type) : Type := hstate → A * hstate.

Definition hret {A} (a : A) : handler A := λ st, (a, st).

Definition hbind {A B} (m : handler A) (k : A → handler B) : handler B :=
  λ st, let '(a, st') := m st in k a st'.

Notation "x <- m ;; k" := (hbind m (λ x, k))
  (at level 100, m at next level, right associativity).
Notation "m ;; k" := (hbind m (λ _, k))
  (at level 100, right associativity).

Definition emit (e : effect) : handler unit :=
  λ st, (tt, {| world := world st; effects := effects st ++ [e] |}).

Definition logf (l : level) (err : option goerror) (msg : string) : handler unit :=
  emit (effLog l err msg).

Definition WriteHeader (status : nat) : handler unit := emit (effHeader status).

(** Modelled from the spec: [respondError(log, enc, msg)] encodes one
    error object on the response. *)
Definition respondError (msg : string) : handler unit :=
  emit (effWrite (errorFrame msg)).

(** Modelled from the spec: [respondMsg(log, enc, msg)] encodes one
    message payload on the response. *)
Definition respondMsg (msg : value) : handler unit :=
  emit (effWrite (msgFrame msg)).

(** A method call: note it, then run it on the world. *)
Definition invoke {A} (c : call) (f : W → A * W) : handler A :=
  emit (effCall c) ;;
  λ st, let '(a, w) := f (world st) in
        (a, {| world := w; effects := effects st |}).

(** [func publish(broker brokerer) http.HandlerFunc] *)
Definition publish (r : request Ctx) : handler unit :=
  match Vars r !! topicVarKey with
  | None =>
      logf Debug None "invalid topic in path" ;;
      WriteHeader StatusBadRequest ;;
      respondError (Error errInvalidTopicValue)
  | Some t =>
      logf Info None "publishing to topic" ;;
      let '(b, err) := ReadAll r in
      match err with
      | Some e =>
          logf Err (Some e) "failed reading request body" ;;
          WriteHeader StatusInternalServerError ;;
          respondError (Error errReadBody)
      | None =>
          perr <- invoke callPublish (Publish t b) ;;
          match perr with
          | Some e =>
              logf Err (Some e) "failed to publish to broker" ;;
              WriteHeader StatusInternalServerError ;;
              respondError (Error errPublish) ;;
              emit effCloseBody
          | None =>
              WriteHeader StatusCreated ;;
              logf Debug None "successfully published to topic" ;;
              emit effCloseBody
          end
      end
  end.

(** One turn of the [for] loop of [subscribe], from the result of
    [dec.Decode(&cmd)] on. *)
Definition iteration (c : consumer) (ctx : Ctx) (rd : read_result)
    : handler control :=
  let '(cmd, err) := rd in
  if isDisconnect err then
    logf Warn None "client disconnected" ;;
    nerr <- invoke callNack (Nack c) ;;
    match nerr with
    | Some e => logf Err (Some e) "failed to nack"
    | None => hret tt
    end ;;
    hret Return
  else
    match err with
    | Some e =>
        logf Err (Some e) "failed decoding command" ;;
        respondError (Error errDecodingCmd) ;;
        hret Return
    | None =>
        if String.eqb cmd CmdInit then
          logf Debug None "initialising consumer" ;;
          res <- invoke callNext (Next c ctx) ;;
          let '(msg, err) := res in
          if errors_Is err (Error errRequestCancelled) then
            logf Info None "client disconnected while waiting for message" ;;
            hret Return
          else
            match err with
            | Some e =>
                logf Err (Some e) "failed to get next value for topic" ;;
                respondError (Error errNextValue) ;;
                hret Return
            | None =>
                respondMsg msg ;;
                logf Debug None "written message to client" ;;
                hret Continue
            end
        else if String.eqb cmd CmdAck then
          logf Debug None "ACKing message" ;;
          aerr <- invoke callAck (Ack c) ;;
          match aerr with
          | Some e =>
              logf Err (Some e) "failed to ACK" ;;
              respondError (Error errAck) ;;
              hret Return
          | None =>
              res <- invoke callNext (Next c ctx) ;;
              let '(msg, err) := res in
              if errors_Is err (Error errRequestCancelled) then
                logf Info None "client disconnected while waiting for message" ;;
                hret Return
              else
                match err with
                | Some e =>
                    logf Err (Some e) "failed to get next value for topic" ;;
                    respondError (Error errNextValue) ;;
                    hret Return
                | None =>
                    respondMsg msg ;;
                    logf Debug None "written message to client" ;;
                    hret Continue
                end
          end
        else if String.eqb cmd CmdNack then
          logf Debug None "NACKing message" ;;
          nerr <- invoke callNack (Nack c) ;;
          match nerr with
          | Some e =>
              logf Err (Some e) "failed to NACK" ;;
              respondError (Error errNack) ;;
              hret Return
          | None =>
              res <- invoke callNext (Next c ctx) ;;
              let '(msg, err) := res in
              if errors_Is err (Error errRequestCancelled) then
                logf Info None "client disconnected while waiting for message" ;;
                hret Return
              else
                match err with
                | Some e =>
                    logf Err (Some e) "failed to get next value for topic" ;;
                    respondError (Error errNextValue) ;;
                    hret Return
                | None =>
                    respondMsg msg ;;
                    logf Debug None "written message to client" ;;
                    hret Continue
                end
          end
        else
          logf Warn None "unrecognised command received" ;;
          respondError "unrecognised command received" ;;
          hret Continue
    end.

(** The [for] loop, fed with the results the decoder produces one after
    the other.  A [return] ends it; when the reads run out the handler is
    left waiting in [dec.Decode]. *)
Fixpoint command_loop (c : consumer) (ctx : Ctx) (reads : list read_result)
    : handler outcome :=
  match reads with
  | [] => hret Decoding
  | rd :: rest =>
      k <- iteration c ctx rd ;;
      match k with
      | Continue => command_loop c ctx rest
      | Return => hret Returned
      end
  end.

(** [func subscribe(broker brokerer) http.HandlerFunc] *)
Definition subscribe (r : request Ctx) (reads : list read_result)
    : handler outcome :=
  match Vars r !! topicVarKey with
  | None =>
      logf Debug None "invalid topic in path" ;;
      WriteHeader StatusBadRequest ;;
      respondError (Error errInvalidTopicValue) ;;
      hret Returned
  | Some t =>
      logf Info None "subscribing to topic" ;;
      c <- invoke callSubscribe (Subscribe t) ;;
      command_loop c (Context r) reads
  end.

(** Readings of the effects. *)
Definition frame_of (e : effect) : option frame :=
  match e with effWrite f => Some f | _ => None end.

Definition call_of (e : effect) : option call :=
  match e with effCall c => Some c | _ => None end.

Definition status_of (e : effect) : option nat :=
  match e with effHeader n => Some n | _ => None end.

Definition is_error_frame (f : frame) : bool :=
  match f with errorFrame _ => true | msgFrame _ => false end.

Definition frames (es : list effect) : list frame := omap frame_of es.
Definition calls (es : list effect) : list call := omap call_of es.

(** The status line of the response is fixed by the first [WriteHeader]. *)
Definition status (es : list effect) : option nat := head (omap status_of es).

(** The state [st] once the world has become [w] and [es] has been done
    to the outside. *)
Definition after (st : hstate) (w : W) (es : list effect) : hstate :=
  {| world := w; effects := effects st ++ es |}.

(** Run a handler on a fresh response. *)
Definition run {A} (h : handler A) (w : W) : A * hstate :=
  h {| world := w; effects := [] |}.

(** The method calls a decoded command leads to in a turn after which the
    loop goes on. *)
Definition calls_of_command (cmd : string) : list call :=
  if String.eqb cmd CmdInit then [callNext]
  else if String.eqb cmd CmdAck then [callAck; callNext]
  else if String.eqb cmd CmdNack then [callNack; callNext]
  else [].

(** A command the [switch] has an arm for. *)
Definition recognised (cmd : string) : bool :=
  String.eqb cmd CmdInit || String.eqb cmd CmdAck || String.eqb cmd CmdNack.

(** What one turn of the loop may do: [k] is how it ends, [w] the world
    it leaves and [es] what it did to the outside.  It sets no status,
    writes at most one frame, calls only consumer methods, and changes the
    world only by calling; a turn after which the loop goes on read a
    command without error, wrote one frame and made that command's
    calls. *)
Definition turn_ok (rd : read_result) (st : hstate) (k : control) (w : W)
    (es : list effect) : Prop :=
  omap status_of es = []
  ∧ (List.length (frames es) ≤ 1)%nat
  ∧ Forall (λ cl, cl ≠ callSubscribe ∧ cl ≠ callPublish) (calls es)
  ∧ (calls es = [] → w = world st)
  ∧ (k = Continue →
       List.length (frames es) = 1%nat ∧ rd.2 = None
       ∧ calls es = calls_of_command rd.1).

End Handlers.

Arguments hstate W : clear implicits.

End Server.

(** ** Test doubles *)

Module Mock.

(** A store that records what was inserted and fails when told to. *)
Record mockStore : Type := mkStore {
  inserted : list (string * value);
  failing : option goerror
}.

#[global] Instance mockStorer : Broker.storer mockStore := {|
  Broker.Insert t val s :=
    match failing s with
    | Some e => (Some e, s)
    | None => (None, {| inserted := inserted s ++ [(t, val)]; failing := None |})
    end;
  Broker.Close s := (failing s, s)
|}.

Definition emptyStore : mockStore := {| inserted := []; failing := None |}.
Definition brokenStore : mockStore :=
  {| inserted := []; failing := Some (errorString "disk full") |}.

(** A scripted world behind the handler, in the manner of the generated
    gomock doubles: [Next] answers from a script, the other calls answer a
    fixed error or [nil]. *)
Record mockWorld : Type := mkWorld {
  nextScript : list (value * option goerror);
  ackResult : option goerror;
  nackResult : option goerror;
  publishResult : option goerror;
  published : list (string * value)
}.

Definition popNext (w : mockWorld) : (value * option goerror) * mockWorld :=
  match nextScript w with
  | [] => (([], Some errRequestCancelled), w)
  | r :: rs =>
      (r, {| nextScript := rs; ackResult := ackResult w;
             nackResult := nackResult w; publishResult := publishResult w;
             published := published w |})
  end.

#[global] Instance mockConsumer : Server.consumerMethods mockWorld unit := {|
  Server.Next _ _ w := popNext w;
  Server.Ack _ w := (ackResult w, w);
  Server.Nack _ w := (nackResult w, w)
|}.

#[global] Instance mockBroker : Server.brokerer mockWorld := {|
  Server.Publish t val w :=
    match publishResult w with
    | Some e => (Some e, w)
    | None =>
        (None, {| nextScript := nextScript w; ackResult := ackResult w;
                  nackResult := nackResult w; publishResult := None;
                  published := published w ++ [(t, val)] |})
    end;
  Server.Subscribe t w := ({| id := 0; topic := t; eventChan := 0 |}, w)
|}.

(** Two consumers on one topic, the second of them waiting for a wake. *)
Definition twoConsumers : Broker.broker mockStore :=
  default (Broker.newBroker emptyStore)
    (Broker.run_ops
       [Broker.opSubscribe "orders"; Broker.opSubscribe "orders";
        Broker.opAwait 1]
       (Broker.newBroker emptyStore)).

(** One consumer on each of two topics, the one on "billing" waiting. *)
Definition twoTopics : Broker.broker mockStore :=
  default (Broker.newBroker emptyStore)
    (Broker.run_ops
       [Broker.opSubscribe "orders"; Broker.opSubscribe "billing";
        Broker.opAwait 1]
       (Broker.newBroker emptyStore)).

Definition quietWorld : mockWorld :=
  {| nextScript := []; ackResult := None; nackResult := None;
     publishResult := None; published := [] |}.

(** Nothing is claimed: Ack and Nack both fail. *)
Definition strictWorld : mockWorld :=
  {| nextScript := [];
     ackResult := Some (errorString "no message claimed");
     nackResult := Some (errorString "no message claimed");
     publishResult := None; published := [] |}.

(** One message waits on the topic. *)
Definition stockedWorld : mockWorld :=
  {| nextScript := [([Byte.x61], None)]; ackResult := None;
     nackResult := None; publishResult := None; published := [] |}.

(** The store behind Next is out of order. *)
Definition faultyWorld : mockWorld :=
  {| nextScript := [([], Some (errorString "request context cancelled"))];
     ackResult := None; nackResult := None; publishResult := None;
     published := [] |}.

Definition theConsumer : consumer := {| id := 0; topic := "orders"; eventChan := 0 |}.

Definition peerGone : goerror := errorString "http2: client disconnected".
Definition streamCancelled : goerror :=
  errorString "stream error: stream ID 1; CANCEL".
Definition badJSON : goerror :=
  errorString "invalid character 'x' looking for beginning of value".

End Mock.

(** * Properties of the broker *)

Section BrokerFacts.
Import Broker.
Context {S : Type} `{!storer S}.
Implicit Types (b : broker S) (h : gmap nat chan) (c : consumer)
  (cs : list consumer) (ch : chan) (t : string) (ev : eventType).

(** *** Channels *)

Lemma try_send_unbuffered ev ch :
  dataqsiz ch = 0 →
  try_send ev ch =
    match recvq ch with
    | Datatypes.S n =>
        (true, {| dataqsiz := dataqsiz ch; qbuf := qbuf ch; recvq := n;
                  handed := handed ch ++ [ev] |})
    | 0 => (false, ch)
    end.
Proof.
  intros Hq. unfold try_send. destruct (recvq ch); [|done].
  rewrite Hq. by destruct (List.length (qbuf ch)).
Qed.

Lemma try_send_keeps_shape ev ch :
  dataqsiz ch = 0 ∧ qbuf ch = [] →
  dataqsiz (try_send ev ch).2 = 0 ∧ qbuf (try_send ev ch).2 = [].
Proof.
  intros [Hq Hb]. rewrite try_send_unbuffered; [|done].
  by destruct (recvq ch).
Qed.

Lemma park_recv_keeps_shape ch :
  dataqsiz ch = 0 ∧ qbuf ch = [] →
  dataqsiz (park_recv ch) = 0 ∧ qbuf (park_recv ch) = [].
Proof. intros [Hq Hb]. unfold park_recv. by rewrite Hb. Qed.

Lemma awaiting_false h c ch :
  h !! eventChan c = Some ch → awaiting h c = false → recvq ch = 0.
Proof.
  unfold awaiting. intros ->. by destruct (recvq ch).
Qed.

(** *** The scan *)

Lemma notify_scan_cases ev cs h :
  unbuffered h →
  (∃ pre c post ch,
      cs = pre ++ c :: post
      ∧ Forall (λ c', awaiting h c' = false) pre
      ∧ h !! eventChan c = Some ch ∧ 0 < recvq ch
      ∧ notify_scan ev cs h =
          <[eventChan c := {| dataqsiz := dataqsiz ch; qbuf := qbuf ch;
                              recvq := pred (recvq ch);
                              handed := handed ch ++ [ev] |}]> h)
  ∨ (Forall (λ c', awaiting h c' = false) cs ∧ notify_scan ev cs h = h).
Proof.
  intros Hu. induction cs as [|c cs IH]; simpl.
  { right. split; [constructor | done]. }
  destruct (h !! eventChan c) as [ch|] eqn:Hc.
  - destruct (Hu _ _ Hc) as [Hq _].
    rewrite try_send_unbuffered; [|done].
    destruct (recvq ch) as [|n] eqn:Hr.
    + destruct IH as [(pre & c' & post & ch' & -> & Hpre & Hc' & Hr' & Heq) | [Hall Heq]].
      * left. exists (c :: pre), c', post, ch'. repeat split; try done.
        constructor; [|done]. unfold awaiting. by rewrite Hc, Hr.
      * right. split; [|done]. constructor; [|done].
        unfold awaiting. by rewrite Hc, Hr.
    + left. exists [], c, cs, ch. rewrite Hr. simpl.
      repeat split; try done; lia.
  - destruct IH as [(pre & c' & post & ch' & -> & Hpre & Hc' & Hr' & Heq) | [Hall Heq]].
    + left. exists (c :: pre), c', post, ch'. repeat split; try done.
      constructor; [|done]. unfold awaiting. by rewrite Hc.
    + right. split; [|done]. constructor; [|done].
      unfold awaiting. by rewrite Hc.
Qed.

Lemma notify_scan_one_change ev cs h a1 a2 :
  notify_scan ev cs h !! a1 ≠ h !! a1 →
  notify_scan ev cs h !! a2 ≠ h !! a2 →
  a1 = a2.
Proof.
  induction cs as [|c cs IH]; simpl; [done|].
  destruct (h !! eventChan c) as [ch|]; [|done].
  destruct (try_send ev ch) as [[] ch']; [|done].
  intros H1 H2.
  destruct (decide (eventChan c = a1)) as [<-|N1];
    [|by rewrite lookup_insert_ne in H1].
  destruct (decide (eventChan c = a2)) as [<-|N2];
    [done | by rewrite lookup_insert_ne in H2].
Qed.

Lemma notify_scan_keeps_shape ev cs h :
  unbuffered h → unbuffered (notify_scan ev cs h).
Proof.
  intros Hu. induction cs as [|c cs IH]; simpl; [done|].
  destruct (h !! eventChan c) as [ch|] eqn:Hc; [|done].
  pose proof (try_send_keeps_shape ev ch (Hu _ _ Hc)) as Hs.
  destruct (try_send ev ch) as [[] ch']; [|done].
  intros a ch2. destruct (decide (eventChan c = a)) as [<-|N].
  - rewrite lookup_insert_eq. by intros [= <-].
  - rewrite lookup_insert_ne; [|done]. apply Hu.
Qed.

Lemma RLock_RUnlock m :
  m ≠ WLocked → ∃ m1, RLock m = Some m1 ∧ RUnlock m1 = Some m.
Proof. destruct m; [eauto | eauto | done]. Qed.

Lemma NotifyConsumer_runs t ev b :
  mu b ≠ WLocked →
  NotifyConsumer t ev b =
    Some (set_chans (notify_scan ev (consumers_of b t) (chans b)) b).
Proof.
  intros Hm. unfold NotifyConsumer.
  destruct (RLock_RUnlock _ Hm) as (m1 & -> & Hu). simpl.
  rewrite Hu. simpl. by destruct b.
Qed.

(** C1: the notification step walks the topic's consumers in
    registration order and hands the event to the first one that is
    awaiting, leaving every other channel as it was; with nobody awaiting
    nothing changes.  It always returns, and it touches neither the store
    nor the registry. *)
Theorem C1_notify_first_awaiting t ev b :
  mu b ≠ WLocked → unbuffered (chans b) →
  ∃ b', NotifyConsumer t ev b = Some b'
    ∧ store b' = store b ∧ consumers b' = consumers b ∧ mu b' = mu b
    ∧ ((∃ pre c post ch,
          consumers_of b t = pre ++ c :: post
          ∧ Forall (λ c', awaiting (chans b) c' = false) pre
          ∧ chans b !! eventChan c = Some ch ∧ 0 < recvq ch
          ∧ chans b' =
              <[eventChan c := {| dataqsiz := dataqsiz ch; qbuf := qbuf ch;
                                  recvq := pred (recvq ch);
                                  handed := handed ch ++ [ev] |}]> (chans b))
       ∨ (Forall (λ c', awaiting (chans b) c' = false) (consumers_of b t)
          ∧ b' = b))
    ∧ (∀ a1 a2, chans b' !! a1 ≠ chans b !! a1 →
                chans b' !! a2 ≠ chans b !! a2 → a1 = a2).
Proof.
  intros Hm Hu. eexists. split; [by apply NotifyConsumer_runs|].
  simpl. repeat split; try done.
  - destruct (notify_scan_cases ev (consumers_of b t) (chans b) Hu)
      as [(pre & c & post & ch & ? & ? & ? & ? & ?) | [? Heq]].
    + left. by exists pre, c, post, ch.
    + right. split; [done|]. unfold set_chans. rewrite Heq. by destruct b.
  - apply notify_scan_one_change.
Qed.

(** *** Subscribe and the registry *)

Lemma Subscribe_runs t b :
  mu b = Unlocked →
  Subscribe t b =
    Some ((register t (set_mu WLocked b)).1,
          set_mu Unlocked (register t (set_mu WLocked b)).2).
Proof. intros Hm. unfold Subscribe. by rewrite Hm. Qed.

Lemma consumers_of_register t t' b :
  consumers_of (register t b).2 t' =
    if decide (t = t') then consumers_of b t ++ [(register t b).1]
    else consumers_of b t'.
Proof.
  unfold consumers_of at 1. simpl. rewrite lookup_insert.
  by destruct (decide (t = t')) as [<-|].
Qed.

Lemma register_fresh t b :
  chans b !! eventChan (register t b).1 = None.
Proof. simpl. apply not_elem_of_dom, is_fresh. Qed.

Lemma register_keeps_shape t b :
  unbuffered (chans b) → unbuffered (chans (register t b).2).
Proof.
  intros Hu a ch. simpl.
  destruct (decide (fresh (dom (chans b)) = a)) as [<-|N].
  - rewrite lookup_insert_eq. by intros [= <-].
  - rewrite lookup_insert_ne; [|done]. apply Hu.
Qed.

Lemma await_keeps_shape a b :
  unbuffered (chans b) → unbuffered (chans (await a b)).
Proof.
  intros Hu a' ch. simpl. rewrite lookup_alter.
  destruct (decide (a = a')) as [<-|N]; [|apply Hu].
  destruct (chans b !! a) as [ch0|] eqn:Ha; simpl; [|done].
  intros [= <-]. by apply park_recv_keeps_shape, (Hu a).
Qed.

(** With the lock free every operation runs to its end and frees the lock
    again; each topic's consumer sequence is a prefix of the new one, and
    channels without a buffer stay so. *)
Lemma step_free o b :
  mu b = Unlocked →
  ∃ b', step o b = Some b' ∧ mu b' = Unlocked
      ∧ (∀ t, consumers_of b t `prefix_of` consumers_of b' t)
      ∧ (unbuffered (chans b) → unbuffered (chans b')).
Proof.
  intros Hm. destruct o as [t val|t| |t ev|a]; simpl.
  - unfold Publish. destruct (Insert t val (store b)) as [[e|] st]; simpl.
    + by exists (set_store st b).
    + rewrite NotifyConsumer_runs; [|simpl; by rewrite Hm]. simpl.
      eexists. split; [done|]. split_and!; try done.
      simpl. apply notify_scan_keeps_shape.
  - rewrite Subscribe_runs; [|done]. simpl. eexists. split; [done|].
    split_and!; [done| |].
    + intros t'. unfold consumers_of. simpl. rewrite lookup_insert.
      destruct (decide (t = t')) as [<-|]; simpl; [|done].
      by apply prefix_app_r.
    + apply (register_keeps_shape t (set_mu WLocked b)).
  - unfold Shutdown. destruct (Close (store b)) as [e st]. simpl.
    by exists (set_store st b).
  - rewrite NotifyConsumer_runs; [|by rewrite Hm]. eexists. split; [done|].
    split_and!; try done. simpl. apply notify_scan_keeps_shape.
  - eexists. split; [done|]. split_and!; try done.
    apply (await_keeps_shape a b).
Qed.

Lemma run_ops_free os b :
  mu b = Unlocked →
  ∃ b', run_ops os b = Some b' ∧ mu b' = Unlocked
      ∧ (∀ t, consumers_of b t `prefix_of` consumers_of b' t)
      ∧ (unbuffered (chans b) → unbuffered (chans b')).
Proof.
  revert b. induction os as [|o os IH]; intros b Hb; simpl.
  { by exists b. }
  destruct (step_free o b Hb) as (b1 & -> & Hb1 & Hp1 & Hu1). simpl.
  destruct (IH b1 Hb1) as (b2 & -> & Hb2 & Hp2 & Hu2).
  exists b2. split_and!; [done | done | | auto]. intros t.
  transitivity (consumers_of b1 t); [apply Hp1 | apply Hp2].
Qed.

Lemma run_ops_settled os b :
  settled b → ∃ b', run_ops os b = Some b' ∧ settled b'.
Proof.
  intros [Hm Hu].
  destruct (run_ops_free os b Hm) as (b' & ? & ? & _ & ?).
  exists b'. split; [done|]. split; auto.
Qed.

Lemma newBroker_settled (st : S) : settled (newBroker st).
Proof. split; [done|]. intros a ch. simpl. by rewrite lookup_empty. Qed.

(** Subscribe goes through exactly when nobody holds the lock, reader or
    writer: it asks for the write side. *)
Lemma Subscribe_needs_free_lock t b :
  is_Some (Subscribe t b) ↔ mu b = Unlocked.
Proof.
  unfold Subscribe. destruct (mu b); simpl.
  - split; [done | eauto].
  - split; [by intros [? ?] | done].
  - split; [by intros [? ?] | done].
Qed.

(** C8: Subscribe asks for the write side of the registry lock: it goes
    through exactly when the lock is free, and is held up by readers as
    well as by a writer.  With the lock free it always returns: it takes
    the write lock, builds a consumer for the topic on a channel of its
    own, puts it at the end of that topic's sequence, leaves the other
    topics alone and releases the lock; and whatever operations run, every
    topic's sequence keeps what it had, in the same order. *)
Theorem C8_subscribe_appends_registry_grows t os b :
  (is_Some (Subscribe t b) ↔ mu b = Unlocked)
  ∧ (mu b = Unlocked →
     (∃ c b1 b',
         Lock (mu b) = Some WLocked
         ∧ register t (set_mu WLocked b) = (c, b1)
         ∧ Unlock (mu b1) = Some Unlocked
         ∧ Subscribe t b = Some (c, b')
         ∧ b' = set_mu Unlocked b1
         ∧ topic c = t
         ∧ chans b !! eventChan c = None
         ∧ chans b' !! eventChan c = Some make_chan
         ∧ consumers_of b' t = consumers_of b t ++ [c]
         ∧ ∀ t', t' ≠ t → consumers_of b' t' = consumers_of b t')
     ∧ (∃ b2, run_ops os b = Some b2
         ∧ mu b2 = Unlocked
         ∧ ∀ t', consumers_of b t' `prefix_of` consumers_of b2 t')).
Proof.
  split; [apply Subscribe_needs_free_lock|].
  intros Hm. split.
  - eexists _, _, _. split; [by rewrite Hm|]. split; [reflexivity|].
    split; [done|]. split; [by rewrite Subscribe_runs|].
    split; [done|]. split; [done|].
    split; [apply (register_fresh t (set_mu WLocked b))|].
    split; [simpl; by rewrite lookup_insert_eq|].
    split.
    + unfold consumers_of at 1. simpl. by rewrite lookup_insert_eq.
    + intros t' N. unfold consumers_of at 1. simpl.
      by rewrite lookup_insert_ne.
  - destruct (run_ops_free os b Hm) as (b2 & ? & ? & ? & _).
    by exists b2.
Qed.

(** C5: Publish starts with the store's Insert.  An error from it comes
    back as it is and nothing else happens, whatever state the registry
    lock is in; otherwise the notification step runs for the topic on the
    broker with the new store, and Publish returns nil. *)
Theorem C5_publish_insert_then_notify t val b :
  (∀ err st, Insert t val (store b) = (Some err, st) →
      Publish t val b = Some (Some err, set_store st b))
  ∧ (∀ st, Insert t val (store b) = (None, st) →
      Publish t val b =
        (b' ← NotifyConsumer t eventTypePublish (set_store st b);
         Some (None, b'))
      ∧ (mu b ≠ WLocked →
         ∃ b', NotifyConsumer t eventTypePublish (set_store st b) = Some b'
             ∧ Publish t val b = Some (None, b')
             ∧ store b' = st
             ∧ chans b' =
                 notify_scan eventTypePublish (consumers_of b t) (chans b))).
Proof.
  unfold Publish. split.
  - by intros err st ->.
  - intros st ->. split; [done|]. intros Hm.
    rewrite NotifyConsumer_runs; [|done]. simpl. by eexists.
Qed.

(** A notification cannot start while the write lock is held, so a
    Publish that returns in that state has not notified. *)
Lemma NotifyConsumer_write_locked t ev b :
  mu b = WLocked → NotifyConsumer t ev b = None.
Proof. intros Hm. unfold NotifyConsumer. by rewrite Hm. Qed.

(** C4, as the code has it: the wake signal has no slot at all.  On every
    channel a run of the broker can produce, a send returns at once;
    it is taken exactly when a receiver is parked, and then goes to that
    receiver; otherwise it is dropped and the channel stays as it was.
    Nothing is ever left in a buffer. *)
Theorem C4_wake_signal_unbuffered (st : S) os b a ch ev :
  run_ops os (newBroker st) = Some b →
  chans b !! a = Some ch →
  dataqsiz ch = 0 ∧ qbuf ch = []
  ∧ (try_send ev ch).1 = negb (Nat.eqb (recvq ch) 0)
  ∧ qbuf (try_send ev ch).2 = []
  ∧ (recvq ch = 0 → try_send ev ch = (false, ch))
  ∧ (∀ n, recvq ch = Datatypes.S n →
       recvq (try_send ev ch).2 = n
       ∧ handed (try_send ev ch).2 = handed ch ++ [ev]).
Proof.
  intros Hrun Ha.
  destruct (run_ops_settled os (newBroker st) (newBroker_settled st))
    as (b' & Hrun' & [_ Hu]).
  rewrite Hrun in Hrun'. injection Hrun' as <-.
  destruct (Hu _ _ Ha) as [Hq Hb].
  rewrite try_send_unbuffered; [|done].
  destruct (recvq ch) as [|n]; simpl; repeat split; try done;
    congruence.
Qed.

End BrokerFacts.

(** *** The broker on the test doubles *)

Section BrokerExamples.
Import Broker Mock.

Example twoConsumers_run :
  run_ops [opSubscribe "orders"; opSubscribe "orders"; opAwait 1]
    (newBroker emptyStore) = Some twoConsumers.
Proof. reflexivity. Qed.

Example twoConsumers_settled : settled twoConsumers.
Proof.
  destruct (run_ops_settled
              [opSubscribe "orders"; opSubscribe "orders"; opAwait 1]
              (newBroker emptyStore) (newBroker_settled emptyStore))
    as (b & Hrun & Hs).
  rewrite twoConsumers_run in Hrun. by injection Hrun as <-.
Qed.

(** The second consumer, the one that waits, gets the event. *)
Example twoConsumers_notified :
  (λ b, (chans b !! 0, chans b !! 1))
    <$> NotifyConsumer "orders" eventTypePublish twoConsumers
  = Some (Some make_chan,
          Some {| dataqsiz := 0; qbuf := []; recvq := 0;
                  handed := [eventTypePublish] |}).
Proof. reflexivity. Qed.

Lemma C1_notify_first_awaiting_witness :
  mu twoConsumers ≠ WLocked ∧ unbuffered (chans twoConsumers)
  ∧ ∃ b', NotifyConsumer "orders" eventTypePublish twoConsumers = Some b'
    ∧ store b' = store twoConsumers
    ∧ consumers b' = consumers twoConsumers
    ∧ mu b' = mu twoConsumers
    ∧ ((∃ pre c post ch,
          consumers_of twoConsumers "orders" = pre ++ c :: post
          ∧ Forall (λ c', awaiting (chans twoConsumers) c' = false) pre
          ∧ chans twoConsumers !! eventChan c = Some ch ∧ 0 < recvq ch
          ∧ chans b' =
              <[eventChan c := {| dataqsiz := dataqsiz ch; qbuf := qbuf ch;
                                  recvq := pred (recvq ch);
                                  handed := handed ch ++ [eventTypePublish] |}]>
                (chans twoConsumers))
       ∨ (Forall (λ c', awaiting (chans twoConsumers) c' = false)
            (consumers_of twoConsumers "orders")
          ∧ b' = twoConsumers))
    ∧ (∀ a1 a2, chans b' !! a1 ≠ chans twoConsumers !! a1 →
                chans b' !! a2 ≠ chans twoConsumers !! a2 → a1 = a2).
Proof.
  split; [discriminate|]. split; [apply twoConsumers_settled|].
  apply (C1_notify_first_awaiting "orders" eventTypePublish twoConsumers);
    [discriminate | apply twoConsumers_settled].
Defined.

(** A single-slot signal does buffer one wake. *)
Example single_slot_buffers_one_wake : buffers_one_wake make_chan_single_slot.
Proof. eexists. by repeat split. Qed.

(** C4 fails as stated: the channel Subscribe makes has no slot.  Its
    consumer is not receiving and nothing is buffered, yet the very first
    send is dropped. *)
Lemma C4_counterexample :
  ∃ c b ch,
    Subscribe "orders" (newBroker emptyStore) = Some (c, b)
    ∧ chans b !! eventChan c = Some ch
    ∧ recvq ch = 0 ∧ qbuf ch = [] ∧ dataqsiz ch = 0
    ∧ try_send eventTypePublish ch = (false, ch)
    ∧ ¬ buffers_one_wake ch.
Proof.
  eexists _, _, make_chan. split; [reflexivity|]. split; [reflexivity|].
  repeat split. intros (ch1 & Hsend & _). discriminate Hsend.
Qed.

Lemma C4_wake_signal_unbuffered_witness :
  run_ops [opSubscribe "orders"; opSubscribe "orders"; opAwait 1]
    (newBroker emptyStore) = Some twoConsumers
  ∧ chans twoConsumers !! 1 = Some (park_recv make_chan)
  ∧ dataqsiz (park_recv make_chan) = 0 ∧ qbuf (park_recv make_chan) = []
  ∧ (try_send eventTypePublish (park_recv make_chan)).1
      = negb (Nat.eqb (recvq (park_recv make_chan)) 0)
  ∧ qbuf (try_send eventTypePublish (park_recv make_chan)).2 = []
  ∧ (recvq (park_recv make_chan) = 0 →
       try_send eventTypePublish (park_recv make_chan)
         = (false, park_recv make_chan))
  ∧ (∀ n, recvq (park_recv make_chan) = Datatypes.S n →
       recvq (try_send eventTypePublish (park_recv make_chan)).2 = n
       ∧ handed (try_send eventTypePublish (park_recv make_chan)).2
           = handed (park_recv make_chan) ++ [eventTypePublish]).
Proof.
  split; [reflexivity|]. split; [reflexivity|].
  apply (C4_wake_signal_unbuffered emptyStore
           [opSubscribe "orders"; opSubscribe "orders"; opAwait 1]
           twoConsumers 1 (park_recv make_chan) eventTypePublish);
    reflexivity.
Defined.

Lemma C5_publish_insert_then_notify_witness :
  Publish "orders" [] (newBroker brokenStore)
    = Some (Some (errorString "disk full"),
            set_store brokenStore (newBroker brokenStore))
  ∧ ∃ b', Publish "orders" [] twoConsumers = Some (None, b')
        ∧ store b' = {| inserted := [("orders", [])]; failing := None |}
        ∧ chans b' =
            notify_scan eventTypePublish
              (consumers_of twoConsumers "orders") (chans twoConsumers).
Proof.
  split.
  - apply (proj1 (C5_publish_insert_then_notify "orders" []
                    (newBroker brokenStore))).
    reflexivity.
  - assert (Insert "orders" [] (store twoConsumers)
            = (None, {| inserted := [("orders", [])]; failing := None |}))
      as Hins by reflexivity.
    destruct (proj2 (C5_publish_insert_then_notify "orders" [] twoConsumers)
                _ Hins) as [_ H].
    destruct H as (b' & _ & ? & ? & ?); [discriminate|].
    by exists b'.
Defined.

Lemma C8_subscribe_appends_registry_grows_witness :
  mu twoConsumers = Unlocked
  ∧ (is_Some (Subscribe "orders" twoConsumers) ↔ mu twoConsumers = Unlocked)
  ∧ (is_Some (Subscribe "orders" (set_mu (RLocked 0) twoConsumers))
     ↔ mu (set_mu (RLocked 0) twoConsumers) = Unlocked)
  ∧ (∃ c b',
        Subscribe "orders" twoConsumers = Some (c, b')
        ∧ topic c = "orders"
        ∧ consumers_of b' "orders" = consumers_of twoConsumers "orders" ++ [c])
  ∧ (∃ b2,
        run_ops [opPublish "orders" []; opSubscribe "billing"; opShutdown]
          twoConsumers = Some b2
        ∧ ∀ t', consumers_of twoConsumers t' `prefix_of` consumers_of b2 t').
Proof.
  split; [reflexivity|].
  destruct (C8_subscribe_appends_registry_grows "orders"
              [opPublish "orders" []; opSubscribe "billing"; opShutdown]
              twoConsumers) as [Hiff Hfree].
  destruct (C8_subscribe_appends_registry_grows "orders" []
              (set_mu (RLocked 0) twoConsumers)) as [Hiff_read _].
  destruct (Hfree eq_refl)
    as [(c & b1 & b' & _ & _ & _ & Hs & _ & Ht & _ & _ & Happ & _)
        (b2 & Hrun & _ & Hpre)].
  split; [exact Hiff|]. split; [exact Hiff_read|].
  split; [by exists c, b' | by exists b2].
Defined.

(** With a reader on the lock a notification still goes through and
    Subscribe does not. *)
Example reader_holds_up_Subscribe :
  Subscribe "orders" (set_mu (RLocked 0) twoConsumers) = None
  ∧ is_Some (NotifyConsumer "orders" eventTypePublish
               (set_mu (RLocked 0) twoConsumers)).
Proof. split; [reflexivity | by eexists]. Qed.

End BrokerExamples.

(** * Properties of the handlers *)

Section StringFacts.

Lemma prefix_occurs (p s : string) :
  String.prefix p s = true ↔ ∃ post, s = p +:+ post.
Proof.
  revert p. induction s as [|b s IH]; intros [|a p]; simpl.
  - split; [by exists "" | done].
  - split; [done | by intros [? ?]].
  - split; [by exists (String b s) | done].
  - destruct (Ascii.ascii_dec a b) as [<-|N].
    + rewrite IH. split; intros [post Hp]; exists post.
      * rewrite Hp. reflexivity.
      * by injection Hp.
    + split; [done | intros [post Hp]; injection Hp; congruence].
Qed.

Lemma Contains_occurs (s sub : string) :
  Contains s sub = true ↔ occurs_in sub s.
Proof.
  unfold occurs_in. induction s as [|a s IH].
  - change (Contains "" sub) with (String.prefix sub "" || false).
    rewrite orb_false_r, prefix_occurs. split.
    + intros [post Hp]. by exists "", post.
    + intros (pre & post & Hp). destruct pre; [by exists post | done].
  - change (Contains (String a s) sub)
      with (String.prefix sub (String a s) || Contains s sub).
    rewrite orb_true_iff, prefix_occurs, IH. split.
    + intros [[post Hp] | (pre & post & Hp)].
      * by exists "", post.
      * exists (String a pre), post. rewrite Hp. reflexivity.
    + intros (pre & post & Hp). destruct pre as [|b pre].
      * left. by exists post.
      * right. exists pre, post. by injection Hp.
Qed.

Lemma isDisconnect_occurs (err : option goerror) :
  isDisconnect err = true ↔
  ∃ e, err = Some e
     ∧ (occurs_in "client disconnected" (Error e)
        ∨ occurs_in "; CANCEL" (Error e)).
Proof.
  destruct err as [e|]; simpl.
  - rewrite orb_true_iff, !Contains_occurs. split.
    + intros ?. by exists e.
    + by intros (? & [= <-] & ?).
  - split; [done | by intros (? & ? & ?)].
Qed.

End StringFacts.

Section ServerFacts.
Import Server.
Context {W Ctx : Type} `{!brokerer W} `{!consumerMethods W Ctx}.
Implicit Types (st : hstate W) (c : consumer) (ctx : Ctx) (cmd : string)
  (rest : list read_result) (e : goerror) (w : W).

Ltac hsimpl :=
  repeat progress
    (unfold iteration, publish, hbind, logf, WriteHeader, respondError,
       respondMsg, invoke, emit, hret, after; simpl);
  rewrite <- ?app_assoc; simpl.

(** A turn that returns ends the loop; later reads are not looked at. *)
Lemma command_loop_return c ctx rd rest st st' :
  iteration c ctx rd st = (Return, st') →
  command_loop c ctx (rd :: rest) st = (Returned, st').
Proof. intros Hi. simpl. unfold hbind. by rewrite Hi. Qed.

(** A turn that falls through goes on with the next read. *)
Lemma command_loop_continue c ctx rd rest st st' :
  iteration c ctx rd st = (Continue, st') →
  command_loop c ctx (rd :: rest) st = command_loop c ctx rest st'.
Proof. intros Hi. simpl. unfold hbind. by rewrite Hi. Qed.

Lemma iteration_disconnect c ctx cmd err st nerr w1 :
  isDisconnect err = true →
  Nack c (world st) = (nerr, w1) →
  iteration c ctx (cmd, err) st =
    (Return,
     after st w1
       ([effLog Warn None "client disconnected"; effCall callNack]
        ++ match nerr with
           | Some e => [effLog Err (Some e) "failed to nack"]
           | None => []
           end)).
Proof.
  intros Hd Hn. unfold iteration. rewrite Hd. hsimpl. rewrite Hn.
  destruct nerr; hsimpl; reflexivity.
Qed.

Lemma iteration_decode_error c ctx cmd e st :
  isDisconnect (Some e) = false →
  iteration c ctx (cmd, Some e) st =
    (Return,
     after st (world st)
       [effLog Err (Some e) "failed decoding command";
        effWrite (errorFrame "error decoding command")]).
Proof. intros Hd. unfold iteration. rewrite Hd. hsimpl. reflexivity. Qed.

Lemma iteration_unrecognised c ctx cmd st :
  cmd ≠ CmdInit → cmd ≠ CmdAck → cmd ≠ CmdNack →
  iteration c ctx (cmd, None) st =
    (Continue,
     after st (world st)
       [effLog Warn None "unrecognised command received";
        effWrite (errorFrame "unrecognised command received")]).
Proof.
  intros H1 H2 H3. hsimpl.
  apply String.eqb_neq in H1, H2, H3. rewrite H1, H2, H3.
  hsimpl. reflexivity.
Qed.

(** C2: a read error that counts as a disconnect makes the handler call
    Nack once, on whatever the consumer holds, and return.  Nothing is
    written to the client; an error from that Nack only reaches the
    log. *)
Theorem C2_disconnect_implicit_nack c ctx cmd err rest st nerr w1 :
  isDisconnect err = true →
  Nack c (world st) = (nerr, w1) →
  let es :=
    [effLog Warn None "client disconnected"; effCall callNack]
    ++ match nerr with
       | Some e => [effLog Err (Some e) "failed to nack"]
       | None => []
       end in
  iteration c ctx (cmd, err) st = (Return, after st w1 es)
  ∧ command_loop c ctx ((cmd, err) :: rest) st = (Returned, after st w1 es)
  ∧ calls es = [callNack]
  ∧ frames es = [].
Proof.
  intros Hd Hn es.
  pose proof (iteration_disconnect c ctx cmd err st nerr w1 Hd Hn) as Hi.
  split; [done|]. split; [by apply command_loop_return|].
  subst es. by destruct nerr.
Qed.

(** C10: isDisconnect holds exactly of the errors whose text contains
    "client disconnected" or "; CANCEL"; any other read error ends the
    loop after one "error decoding command" frame. *)
Theorem C10_disconnect_classification (err : option goerror) :
  (isDisconnect err = true ↔
     ∃ e, err = Some e
        ∧ (occurs_in "client disconnected" (Error e)
           ∨ occurs_in "; CANCEL" (Error e)))
  ∧ (∀ c ctx cmd e rest st,
       err = Some e → isDisconnect err = false →
       let es := [effLog Err (Some e) "failed decoding command";
                  effWrite (errorFrame "error decoding command")] in
       iteration c ctx (cmd, err) st = (Return, after st (world st) es)
       ∧ command_loop c ctx ((cmd, err) :: rest) st
           = (Returned, after st (world st) es)
       ∧ frames es = [errorFrame "error decoding command"]
       ∧ calls es = []).
Proof.
  split; [apply isDisconnect_occurs|].
  intros c ctx cmd e rest st -> Hd es.
  pose proof (iteration_decode_error c ctx cmd e st Hd) as Hi.
  split; [done|]. split; [by apply command_loop_return | done].
Qed.

(** C3, as the code has it: a command that is none of INIT, ACK and NACK
    costs one error frame and the loop goes on with the next read; a
    read that fails to decode, and is no disconnect, costs one error
    frame and ends the loop. *)
Theorem C3_unrecognised_continues_malformed_ends c ctx cmd rest st :
  (cmd ≠ CmdInit → cmd ≠ CmdAck → cmd ≠ CmdNack →
     let es := [effLog Warn None "unrecognised command received";
                effWrite (errorFrame "unrecognised command received")] in
     iteration c ctx (cmd, None) st = (Continue, after st (world st) es)
     ∧ command_loop c ctx ((cmd, None) :: rest) st
         = command_loop c ctx rest (after st (world st) es)
     ∧ frames es = [errorFrame "unrecognised command received"])
  ∧ (∀ e, isDisconnect (Some e) = false →
     let es := [effLog Err (Some e) "failed decoding command";
                effWrite (errorFrame "error decoding command")] in
     iteration c ctx (cmd, Some e) st = (Return, after st (world st) es)
     ∧ command_loop c ctx ((cmd, Some e) :: rest) st
         = (Returned, after st (world st) es)
     ∧ frames es = [errorFrame "error decoding command"]).
Proof.
  split.
  - intros H1 H2 H3 es.
    pose proof (iteration_unrecognised c ctx cmd st H1 H2 H3) as Hi.
    split; [done|]. split; [by apply command_loop_continue | done].
  - intros e Hd es.
    pose proof (iteration_decode_error c ctx cmd e st Hd) as Hi.
    split; [done|]. split; [by apply command_loop_return | done].
Qed.

(** *** The three commands *)

Lemma iteration_init c ctx st msg nerr w2 :
  Next c ctx (world st) = ((msg, nerr), w2) →
  iteration c ctx (CmdInit, None) st =
    if errors_Is nerr (Error errRequestCancelled) then
      (Return,
       after st w2
         [effLog Debug None "initialising consumer"; effCall callNext;
          effLog Info None "client disconnected while waiting for message"])
    else
      match nerr with
      | Some e =>
          (Return,
           after st w2
             [effLog Debug None "initialising consumer"; effCall callNext;
              effLog Err (Some e) "failed to get next value for topic";
              effWrite (errorFrame "error getting next value for consumer")])
      | None =>
          (Continue,
           after st w2
             [effLog Debug None "initialising consumer"; effCall callNext;
              effWrite (msgFrame msg);
              effLog Debug None "written message to client"])
      end.
Proof.
  intros Hn. hsimpl. rewrite Hn.
  destruct (errors_Is nerr "request context cancelled");
    [|destruct nerr]; hsimpl; reflexivity.
Qed.

Lemma iteration_ack_failed c ctx st e w1 :
  Ack c (world st) = (Some e, w1) →
  iteration c ctx (CmdAck, None) st =
    (Return,
     after st w1
       [effLog Debug None "ACKing message"; effCall callAck;
        effLog Err (Some e) "failed to ACK";
        effWrite (errorFrame "error ACKing message")]).
Proof. intros Ha. hsimpl. rewrite Ha. hsimpl. reflexivity. Qed.

Lemma iteration_ack c ctx st w1 msg nerr w2 :
  Ack c (world st) = (None, w1) →
  Next c ctx w1 = ((msg, nerr), w2) →
  iteration c ctx (CmdAck, None) st =
    if errors_Is nerr (Error errRequestCancelled) then
      (Return,
       after st w2
         [effLog Debug None "ACKing message"; effCall callAck;
          effCall callNext;
          effLog Info None "client disconnected while waiting for message"])
    else
      match nerr with
      | Some e =>
          (Return,
           after st w2
             [effLog Debug None "ACKing message"; effCall callAck;
              effCall callNext;
              effLog Err (Some e) "failed to get next value for topic";
              effWrite (errorFrame "error getting next value for consumer")])
      | None =>
          (Continue,
           after st w2
             [effLog Debug None "ACKing message"; effCall callAck;
              effCall callNext; effWrite (msgFrame msg);
              effLog Debug None "written message to client"])
      end.
Proof.
  intros Ha Hn. hsimpl. rewrite Ha. hsimpl. rewrite Hn.
  destruct (errors_Is nerr "request context cancelled");
    [|destruct nerr]; hsimpl; reflexivity.
Qed.

Lemma iteration_nack_failed c ctx st e w1 :
  Nack c (world st) = (Some e, w1) →
  iteration c ctx (CmdNack, None) st =
    (Return,
     after st w1
       [effLog Debug None "NACKing message"; effCall callNack;
        effLog Err (Some e) "failed to NACK";
        effWrite (errorFrame "error NACKing message")]).
Proof. intros Ha. hsimpl. rewrite Ha. hsimpl. reflexivity. Qed.

Lemma iteration_nack c ctx st w1 msg nerr w2 :
  Nack c (world st) = (None, w1) →
  Next c ctx w1 = ((msg, nerr), w2) →
  iteration c ctx (CmdNack, None) st =
    if errors_Is nerr (Error errRequestCancelled) then
      (Return,
       after st w2
         [effLog Debug None "NACKing message"; effCall callNack;
          effCall callNext;
          effLog Info None "client disconnected while waiting for message"])
    else
      match nerr with
      | Some e =>
          (Return,
           after st w2
             [effLog Debug None "NACKing message"; effCall callNack;
              effCall callNext;
              effLog Err (Some e) "failed to get next value for topic";
              effWrite (errorFrame "error getting next value for consumer")])
      | None =>
          (Continue,
           after st w2
             [effLog Debug None "NACKing message"; effCall callNack;
              effCall callNext; effWrite (msgFrame msg);
              effLog Debug None "written message to client"])
      end.
Proof.
  intros Ha Hn. hsimpl. rewrite Ha. hsimpl. rewrite Hn.
  destruct (errors_Is nerr "request context cancelled");
    [|destruct nerr]; hsimpl; reflexivity.
Qed.

(** C6: on ACK the handler calls Ack.  If that fails it writes one error
    frame and returns, and the loop is over.  If it succeeds it calls
    Next, and from there on the turn is the one INIT would take from the
    same state: same effects, same end, and the loop ends or goes on to
    the next read as it would after INIT.  NACK does the same with
    Nack. *)
Theorem C6_ack_nack_then_next c ctx st rest :
  (∀ aerr w1, Ack c (world st) = (aerr, w1) →
     match aerr with
     | Some e =>
         let es := [effLog Debug None "ACKing message"; effCall callAck;
                    effLog Err (Some e) "failed to ACK";
                    effWrite (errorFrame "error ACKing message")] in
         iteration c ctx (CmdAck, None) st = (Return, after st w1 es)
         ∧ command_loop c ctx ((CmdAck, None) :: rest) st
             = (Returned, after st w1 es)
         ∧ frames es = [errorFrame "error ACKing message"]
         ∧ calls es = [callAck]
     | None =>
         ∀ msg nerr w2, Next c ctx w1 = ((msg, nerr), w2) →
         ∃ k tail,
           iteration c ctx (CmdInit, None)
             {| world := w1; effects := effects st |}
           = (k, after st w2
                   (effLog Debug None "initialising consumer" :: tail))
           ∧ iteration c ctx (CmdAck, None) st
             = (k, after st w2
                     ([effLog Debug None "ACKing message"; effCall callAck]
                      ++ tail))
           ∧ command_loop c ctx ((CmdInit, None) :: rest)
               {| world := w1; effects := effects st |}
             = match k with
               | Continue =>
                   command_loop c ctx rest
                     (after st w2
                        (effLog Debug None "initialising consumer" :: tail))
               | Return =>
                   (Returned,
                    after st w2
                      (effLog Debug None "initialising consumer" :: tail))
               end
           ∧ command_loop c ctx ((CmdAck, None) :: rest) st
             = match k with
               | Continue =>
                   command_loop c ctx rest
                     (after st w2
                        ([effLog Debug None "ACKing message";
                          effCall callAck] ++ tail))
               | Return =>
                   (Returned,
                    after st w2
                      ([effLog Debug None "ACKing message";
                        effCall callAck] ++ tail))
               end
           ∧ calls tail = [callNext]
           ∧ (k, frames tail) =
               if errors_Is nerr (Error errRequestCancelled)
               then (Return, [])
               else match nerr with
                    | Some _ =>
                        (Return,
                         [errorFrame "error getting next value for consumer"])
                    | None => (Continue, [msgFrame msg])
                    end
     end)
  ∧ (∀ aerr w1, Nack c (world st) = (aerr, w1) →
     match aerr with
     | Some e =>
         let es := [effLog Debug None "NACKing message"; effCall callNack;
                    effLog Err (Some e) "failed to NACK";
                    effWrite (errorFrame "error NACKing message")] in
         iteration c ctx (CmdNack, None) st = (Return, after st w1 es)
         ∧ command_loop c ctx ((CmdNack, None) :: rest) st
             = (Returned, after st w1 es)
         ∧ frames es = [errorFrame "error NACKing message"]
         ∧ calls es = [callNack]
     | None =>
         ∀ msg nerr w2, Next c ctx w1 = ((msg, nerr), w2) →
         ∃ k tail,
           iteration c ctx (CmdInit, None)
             {| world := w1; effects := effects st |}
           = (k, after st w2
                   (effLog Debug None "initialising consumer" :: tail))
           ∧ iteration c ctx (CmdNack, None) st
             = (k, after st w2
                     ([effLog Debug None "NACKing message"; effCall callNack]
                      ++ tail))
           ∧ command_loop c ctx ((CmdInit, None) :: rest)
               {| world := w1; effects := effects st |}
             = match k with
               | Continue =>
                   command_loop c ctx rest
                     (after st w2
                        (effLog Debug None "initialising consumer" :: tail))
               | Return =>
                   (Returned,
                    after st w2
                      (effLog Debug None "initialising consumer" :: tail))
               end
           ∧ command_loop c ctx ((CmdNack, None) :: rest) st
             = match k with
               | Continue =>
                   command_loop c ctx rest
                     (after st w2
                        ([effLog Debug None "NACKing message";
                          effCall callNack] ++ tail))
               | Return =>
                   (Returned,
                    after st w2
                      ([effLog Debug None "NACKing message";
                        effCall callNack] ++ tail))
               end
           ∧ calls tail = [callNext]
           ∧ (k, frames tail) =
               if errors_Is nerr (Error errRequestCancelled)
               then (Return, [])
               else match nerr with
                    | Some _ =>
                        (Return,
                         [errorFrame "error getting next value for consumer"])
                    | None => (Continue, [msgFrame msg])
                    end
     end).
Proof.
  assert (∀ rd st0 k st1,
            iteration c ctx rd st0 = (k, st1) →
            command_loop c ctx (rd :: rest) st0
              = match k with
                | Continue => command_loop c ctx rest st1
                | Return => (Returned, st1)
                end) as Hloop.
  { intros rd st0 [] st1 Hi;
      [by apply command_loop_continue | by apply command_loop_return]. }
  split; intros [e|] w1 Ha.
  - pose proof (iteration_ack_failed c ctx st e w1 Ha) as Hi.
    split; [done|]. split; [exact (Hloop _ _ _ _ Hi) | done].
  - intros msg nerr w2 Hn.
    pose proof (iteration_ack c ctx st w1 msg nerr w2 Ha Hn) as Hi.
    pose proof (iteration_init c ctx {| world := w1; effects := effects st |}
                  msg nerr w2 Hn) as Hinit.
    destruct (errors_Is nerr (Error errRequestCancelled));
      [|destruct nerr]; eexists _, _;
      (split; [exact Hinit|]); (split; [exact Hi|]);
      (split; [exact (Hloop _ _ _ _ Hinit)|]);
      (split; [exact (Hloop _ _ _ _ Hi)|]); done.
  - pose proof (iteration_nack_failed c ctx st e w1 Ha) as Hi.
    split; [done|]. split; [exact (Hloop _ _ _ _ Hi) | done].
  - intros msg nerr w2 Hn.
    pose proof (iteration_nack c ctx st w1 msg nerr w2 Ha Hn) as Hi.
    pose proof (iteration_init c ctx {| world := w1; effects := effects st |}
                  msg nerr w2 Hn) as Hinit.
    destruct (errors_Is nerr (Error errRequestCancelled));
      [|destruct nerr]; eexists _, _;
      (split; [exact Hinit|]); (split; [exact Hi|]);
      (split; [exact (Hloop _ _ _ _ Hinit)|]);
      (split; [exact (Hloop _ _ _ _ Hi)|]); done.
Qed.

(** C7: wherever Next is called (on INIT, or after an Ack or a Nack that
    went through), a result that is the cancellation error ends the loop
    with no frame and no further call; any other error ends it after one
    error frame. *)
Theorem C7_cancellation_is_silent c ctx cmd st pre w1 msg nerr w2 rest :
  (cmd = CmdInit ∧ w1 = world st
     ∧ pre = [effLog Debug None "initialising consumer"])
  ∨ (cmd = CmdAck ∧ Ack c (world st) = (None, w1)
     ∧ pre = [effLog Debug None "ACKing message"; effCall callAck])
  ∨ (cmd = CmdNack ∧ Nack c (world st) = (None, w1)
     ∧ pre = [effLog Debug None "NACKing message"; effCall callNack]) →
  Next c ctx w1 = ((msg, nerr), w2) →
  (errors_Is nerr (Error errRequestCancelled) = true →
     let es := [effCall callNext;
                effLog Info None
                  "client disconnected while waiting for message"] in
     iteration c ctx (cmd, None) st = (Return, after st w2 (pre ++ es))
     ∧ command_loop c ctx ((cmd, None) :: rest) st
         = (Returned, after st w2 (pre ++ es))
     ∧ frames (pre ++ es) = []
     ∧ calls es = [callNext])
  ∧ (∀ e, errors_Is nerr (Error errRequestCancelled) = false →
     nerr = Some e →
     let es := [effCall callNext;
                effLog Err (Some e) "failed to get next value for topic";
                effWrite (errorFrame "error getting next value for consumer")] in
     iteration c ctx (cmd, None) st = (Return, after st w2 (pre ++ es))
     ∧ command_loop c ctx ((cmd, None) :: rest) st
         = (Returned, after st w2 (pre ++ es))
     ∧ frames (pre ++ es)
         = [errorFrame "error getting next value for consumer"]
     ∧ calls es = [callNext]).
Proof.
  intros Hpre Hn.
  assert (∀ k es, iteration c ctx (cmd, None) st = (Return, k) →
            k = after st w2 (pre ++ es) →
            iteration c ctx (cmd, None) st = (Return, after st w2 (pre ++ es))
            ∧ command_loop c ctx ((cmd, None) :: rest) st
                = (Returned, after st w2 (pre ++ es))) as Hboth.
  { intros k es Hi ->. split; [done | by apply command_loop_return]. }
  destruct Hpre as [(-> & -> & ->) | [(-> & Ha & ->) | (-> & Ha & ->)]].
  - pose proof (iteration_init c ctx st msg nerr w2 Hn) as Hi.
    split; [intros Hc | intros e Hc ->]; rewrite Hc in Hi; intros es;
      (split_and!; [eapply Hboth | eapply Hboth | |]; done).
  - pose proof (iteration_ack c ctx st w1 msg nerr w2 Ha Hn) as Hi.
    split; [intros Hc | intros e Hc ->]; rewrite Hc in Hi; intros es;
      (split_and!; [eapply Hboth | eapply Hboth | |]; done).
  - pose proof (iteration_nack c ctx st w1 msg nerr w2 Ha Hn) as Hi.
    split; [intros Hc | intros e Hc ->]; rewrite Hc in Hi; intros es;
      (split_and!; [eapply Hboth | eapply Hboth | |]; done).
Qed.

(** C9: the publish handler answers 400 with the "invalid topic value"
    error object when the route has no topic, 500 with an error object
    when the body cannot be read or the broker's Publish fails, and 201
    with nothing in the body otherwise. *)
Theorem C9_publish_responses (r : request Ctx) w :
  let es := effects (run (publish r) w).2 in
  (status es, frames es) =
    match Vars r !! topicVarKey with
    | None => (Some 400, [errorFrame "invalid topic value"])
    | Some t =>
        match (ReadAll r).2 with
        | Some _ => (Some 500, [errorFrame "error reading the request body"])
        | None =>
            match (Publish t (ReadAll r).1 w).1 with
            | Some _ => (Some 500, [errorFrame "error publishing to broker"])
            | None => (Some 201, [])
            end
        end
    end.
Proof.
  unfold run, publish.
  destruct (Vars r !! topicVarKey) as [t|]; [|reflexivity].
  destruct (ReadAll r) as [body [e|]]; [reflexivity|].
  hsimpl. destruct (Publish t body w) as [[e|] w']; reflexivity.
Qed.

End ServerFacts.

(** *** The handlers on the test doubles *)

Section ServerExamples.
Import Server Mock.

Lemma C2_disconnect_implicit_nack_witness :
  isDisconnect (Some peerGone) = true
  ∧ Nack theConsumer strictWorld
      = (Some (errorString "no message claimed"), strictWorld)
  ∧ run (iteration theConsumer () ("", Some peerGone)) strictWorld
      = (Return,
         {| world := strictWorld;
            effects :=
              [effLog Warn None "client disconnected"; effCall callNack;
               effLog Err (Some (errorString "no message claimed"))
                 "failed to nack"] |})
  ∧ run (command_loop theConsumer () [("", Some peerGone); ("INIT", None)])
      strictWorld
      = (Returned,
         {| world := strictWorld;
            effects :=
              [effLog Warn None "client disconnected"; effCall callNack;
               effLog Err (Some (errorString "no message claimed"))
                 "failed to nack"] |}).
Proof.
  split; [reflexivity|]. split; [reflexivity|].
  destruct (C2_disconnect_implicit_nack theConsumer () "" (Some peerGone)
              [("INIT", None)] {| world := strictWorld; effects := [] |}
              (Some (errorString "no message claimed")) strictWorld
              ltac:(reflexivity) ltac:(reflexivity)) as (Hi & Hl & _).
  split; [exact Hi | exact Hl].
Defined.

(** C3 fails as stated for a command that does not decode: the turn
    returns instead of going on, and the INIT that follows is never
    read. *)
Lemma C3_counterexample :
  isDisconnect (Some badJSON) = false
  ∧ (run (iteration theConsumer () ("", Some badJSON)) stockedWorld).1
      ≠ Continue
  ∧ run (command_loop theConsumer () [("", Some badJSON); ("INIT", None)])
      stockedWorld
      = (Returned,
         {| world := stockedWorld;
            effects :=
              [effLog Err (Some badJSON) "failed decoding command";
               effWrite (errorFrame "error decoding command")] |}).
Proof. split; [reflexivity|]. split; [discriminate | reflexivity]. Qed.

Lemma C3_unrecognised_continues_malformed_ends_witness :
  run (command_loop theConsumer () [("PING", None); ("INIT", None)])
    stockedWorld
  = command_loop theConsumer () [("INIT", None)]
      {| world := stockedWorld;
         effects :=
           [effLog Warn None "unrecognised command received";
            effWrite (errorFrame "unrecognised command received")] |}
  ∧ run (iteration theConsumer () ("PING", Some badJSON)) stockedWorld
    = (Return,
       {| world := stockedWorld;
          effects :=
            [effLog Err (Some badJSON) "failed decoding command";
             effWrite (errorFrame "error decoding command")] |}).
Proof.
  destruct (C3_unrecognised_continues_malformed_ends theConsumer () "PING"
              [("INIT", None)] {| world := stockedWorld; effects := [] |})
    as [Hu Hm].
  split.
  - destruct Hu as (_ & Hl & _); [discriminate ..|]. exact Hl.
  - destruct (Hm badJSON ltac:(reflexivity)) as (Hi & _). exact Hi.
Defined.

Lemma C6_ack_nack_then_next_witness :
  run (iteration theConsumer () ("ACK", None)) strictWorld
    = (Return,
       {| world := strictWorld;
          effects :=
            [effLog Debug None "ACKing message"; effCall callAck;
             effLog Err (Some (errorString "no message claimed"))
               "failed to ACK";
             effWrite (errorFrame "error ACKing message")] |})
  ∧ run (command_loop theConsumer () [("ACK", None); ("INIT", None)])
      strictWorld
    = (Returned,
       {| world := strictWorld;
          effects :=
            [effLog Debug None "ACKing message"; effCall callAck;
             effLog Err (Some (errorString "no message claimed"))
               "failed to ACK";
             effWrite (errorFrame "error ACKing message")] |})
  ∧ ∃ k tail,
      run (iteration theConsumer () ("INIT", None)) stockedWorld
        = (k, {| world := quietWorld;
                 effects :=
                   effLog Debug None "initialising consumer" :: tail |})
      ∧ run (iteration theConsumer () ("NACK", None)) stockedWorld
        = (k, {| world := quietWorld;
                 effects :=
                   [effLog Debug None "NACKing message"; effCall callNack]
                   ++ tail |})
      ∧ run (command_loop theConsumer () [("NACK", None); ("PING", None)])
          stockedWorld
        = command_loop theConsumer () [("PING", None)]
            {| world := quietWorld;
               effects :=
                 [effLog Debug None "NACKing message"; effCall callNack]
                 ++ tail |}
      ∧ calls tail = [callNext]
      ∧ (k, frames tail) = (Continue, [msgFrame [Byte.x61]]).
Proof.
  pose proof (proj1 (C6_ack_nack_then_next theConsumer ()
                       {| world := strictWorld; effects := [] |}
                       [("INIT", None)])) as Ha.
  specialize (Ha (Some (errorString "no message claimed")) strictWorld
                eq_refl).
  destruct Ha as (Hi & Hl & _).
  split; [exact Hi|]. split; [exact Hl|].
  pose proof (proj2 (C6_ack_nack_then_next theConsumer ()
                       {| world := stockedWorld; effects := [] |}
                       [("PING", None)])) as Hn.
  specialize (Hn None stockedWorld eq_refl [Byte.x61] None quietWorld
                eq_refl).
  destruct Hn as (k & tail & Hinit & Hnack & _ & Hloop & Hcalls & Hk).
  exists k, tail. split; [exact Hinit|]. split; [exact Hnack|].
  split; [|done].
  injection Hk as -> _. exact Hloop.
Defined.

Lemma C7_cancellation_is_silent_witness :
  Next theConsumer () quietWorld = (([], Some errRequestCancelled), quietWorld)
  ∧ errors_Is (Some errRequestCancelled) (Error errRequestCancelled) = true
  ∧ run (command_loop theConsumer () [("INIT", None); ("ACK", None)])
      quietWorld
    = (Returned,
       {| world := quietWorld;
          effects :=
            [effLog Debug None "initialising consumer"; effCall callNext;
             effLog Info None
               "client disconnected while waiting for message"] |})
  ∧ errors_Is (Some (errorString "request context cancelled"))
      (Error errRequestCancelled) = false
  ∧ run (iteration theConsumer () ("ACK", None)) faultyWorld
    = (Return,
       {| world := quietWorld;
          effects :=
            [effLog Debug None "ACKing message"; effCall callAck;
             effCall callNext;
             effLog Err (Some (errorString "request context cancelled"))
               "failed to get next value for topic";
             effWrite
               (errorFrame "error getting next value for consumer")] |}).
Proof.
  split; [reflexivity|]. split; [reflexivity|]. split; [|split; [reflexivity|]].
  - destruct (C7_cancellation_is_silent theConsumer () "INIT"
                {| world := quietWorld; effects := [] |}
                [effLog Debug None "initialising consumer"] quietWorld
                [] (Some errRequestCancelled) quietWorld [("ACK", None)]
                ltac:(left; by repeat split) ltac:(reflexivity))
      as [Hc _].
    destruct (Hc ltac:(reflexivity)) as (_ & Hl & _). exact Hl.
  - destruct (C7_cancellation_is_silent theConsumer () "ACK"
                {| world := faultyWorld; effects := [] |}
                [effLog Debug None "ACKing message"; effCall callAck]
                faultyWorld
                [] (Some (errorString "request context cancelled"))
                quietWorld []
                ltac:(right; left; by repeat split) ltac:(reflexivity))
      as [_ He].
    destruct (He _ ltac:(reflexivity) ltac:(reflexivity)) as (Hi & _). exact Hi.
Defined.

Lemma C10_disconnect_classification_witness :
  (isDisconnect (Some streamCancelled) = true ↔
     ∃ e, Some streamCancelled = Some e
        ∧ (occurs_in "client disconnected" (Error e)
           ∨ occurs_in "; CANCEL" (Error e)))
  ∧ isDisconnect (Some (errorString "EOF")) = false
  ∧ run (command_loop theConsumer ()
           [("", Some (errorString "EOF")); ("INIT", None)]) stockedWorld
    = (Returned,
       {| world := stockedWorld;
          effects :=
            [effLog Err (Some (errorString "EOF")) "failed decoding command";
             effWrite (errorFrame "error decoding command")] |}).
Proof.
  split; [exact (proj1 (C10_disconnect_classification (Some streamCancelled)))|].
  split; [reflexivity|].
  destruct (proj2 (C10_disconnect_classification (Some (errorString "EOF")))
              theConsumer () "" (errorString "EOF") [("INIT", None)]
              {| world := stockedWorld; effects := [] |} ltac:(reflexivity) ltac:(reflexivity))
    as (_ & Hl & _).
  exact Hl.
Defined.

(** The publish handler on the doubles. *)
Example publish_created :
  let es := effects (run (publish {| Vars := {["topic" := "orders"]};
                                     ReadAll := ([Byte.x61], None);
                                     Context := () |}) quietWorld).2 in
  (status es, frames es) = (Some 201, []).
Proof. reflexivity. Qed.

Example publish_without_topic :
  let es := effects (run (publish {| Vars := ∅; ReadAll := ([], None);
                                     Context := () |}) quietWorld).2 in
  (status es, frames es) = (Some 400, [errorFrame "invalid topic value"]).
Proof. reflexivity. Qed.

End ServerExamples.

(** * Further properties of the broker *)

Section BrokerRuns.
Import Broker.
Context {S : Type} `{!storer S}.
Implicit Types (b : broker S) (h : gmap nat chan) (c : consumer)
  (cs : list consumer) (ch : chan) (t : string) (ev : eventType).

(** The scan only writes to channels that exist, and only to channels of
    the consumers it walks. *)
Lemma notify_scan_is_Some ev cs h a :
  is_Some (notify_scan ev cs h !! a) ↔ is_Some (h !! a).
Proof.
  induction cs as [|c cs IH]; simpl; [done|].
  destruct (h !! eventChan c) as [ch|] eqn:Hc; [|done].
  destruct (try_send ev ch) as [[] ch']; [|done].
  destruct (decide (eventChan c = a)) as [<-|N].
  - rewrite lookup_insert_eq, Hc. split; eauto.
  - by rewrite lookup_insert_ne.
Qed.

Lemma notify_scan_elsewhere ev cs h a :
  (∀ c, c ∈ cs → eventChan c ≠ a) →
  notify_scan ev cs h !! a = h !! a.
Proof.
  induction cs as [|c cs IH]; simpl; [done|]. intros Hne.
  assert (notify_scan ev cs h !! a = h !! a) as Hrest.
  { apply IH. intros c' Hc'. apply Hne. by right. }
  destruct (h !! eventChan c) as [ch|]; [|done].
  destruct (try_send ev ch) as [[] ch']; [|done].
  rewrite lookup_insert_ne; [done|]. apply Hne. by left.
Qed.

Lemma newBroker_wf (st : S) : registry_wf (newBroker st).
Proof.
  split.
  - intros t i c. unfold registered, consumers_of. simpl.
    by rewrite lookup_empty.
  - intros t1 i1 c1 t2 i2 c2. unfold registered, consumers_of. simpl.
    by rewrite lookup_empty.
Qed.

(** Moving the lock or the store, or rewriting channels in place, keeps
    the registry well formed. *)
Lemma registry_wf_same b b' :
  consumers b' = consumers b →
  (∀ a, is_Some (chans b !! a) → is_Some (chans b' !! a)) →
  registry_wf b → registry_wf b'.
Proof.
  intros Hc Hd [Hwf1 Hwf2]. unfold registry_wf, registered, consumers_of.
  rewrite Hc. split.
  - intros t i c Hr. destruct (Hwf1 t i c Hr) as [? ?]. split; auto.
  - apply Hwf2.
Qed.

Lemma registered_register t b t' i c' :
  registered (register t b).2 t' i c' ↔
  registered b t' i c'
  ∨ (t' = t ∧ i = List.length (consumers_of b t) ∧ c' = (register t b).1).
Proof.
  unfold registered. rewrite consumers_of_register.
  destruct (decide (t = t')) as [<-|N].
  - split.
    + intros Hl. apply lookup_app_Some in Hl as [Hl | [Hlen Hl]]; [by left|].
      right. apply list_lookup_singleton_Some in Hl as [Hi <-].
      split; [done|]. split; [lia | done].
    + intros [Hl | (_ & -> & ->)].
      * by apply lookup_app_l_Some.
      * rewrite lookup_app_r; [|done]. by rewrite Nat.sub_diag.
  - split; [by left|]. intros [? | (-> & _)]; done.
Qed.

Lemma register_wf t b : registry_wf b → registry_wf (register t b).2.
Proof.
  intros [Hwf1 Hwf2].
  assert (∀ t' i c', registered b t' i c' →
            eventChan c' ≠ fresh (dom (chans b))) as Hold.
  { intros t' i c' Hr Heq. destruct (Hwf1 _ _ _ Hr) as [_ Hs].
    rewrite Heq in Hs. apply elem_of_dom in Hs. by apply is_fresh in Hs. }
  split.
  - intros t' i c' Hr. apply registered_register in Hr as [Hr | (-> & _ & ->)].
    + destruct (Hwf1 _ _ _ Hr) as [Ht Hs]. split; [done|]. simpl.
      rewrite lookup_insert_ne; [done|]. intros Heq. by eapply Hold.
    + split; [done|]. simpl. rewrite lookup_insert_eq. eauto.
  - intros t1 i1 c1 t2 i2 c2 H1 H2 Heq.
    apply registered_register in H1 as [H1 | (-> & -> & ->)];
      apply registered_register in H2 as [H2 | (-> & -> & ->)].
    + by eapply Hwf2.
    + exfalso. by eapply Hold.
    + exfalso. eapply Hold; [exact H2 | done].
    + done.
Qed.

Lemma step_wf o b b' :
  step o b = Some b' → registry_wf b → registry_wf b'.
Proof.
  destruct o as [t val|t| |t ev|a]; simpl.
  - unfold Publish. destruct (Insert t val (store b)) as [[e|] st]; simpl.
    + intros [= <-]. by apply registry_wf_same.
    + unfold NotifyConsumer. simpl.
      destruct (RLock (mu b)) as [m1|]; simpl; [|done].
      destruct (RUnlock m1) as [m2|]; simpl; [|done].
      intros [= <-]. apply registry_wf_same; [done|]. simpl.
      intros a. by rewrite notify_scan_is_Some.
  - unfold Subscribe. destruct (Lock (mu b)) as [m1|]; simpl; [|done].
    destruct (Unlock m1) as [m2|]; simpl; [|done].
    intros [= <-] Hwf.
    apply (registry_wf_same (register t (set_mu m1 b)).2); [done | done |].
    apply register_wf. by apply (registry_wf_same b).
  - unfold Shutdown. destruct (Close (store b)) as [e st]. simpl.
    intros [= <-]. by apply registry_wf_same.
  - unfold NotifyConsumer. destruct (RLock (mu b)) as [m1|]; simpl; [|done].
    destruct (RUnlock m1) as [m2|]; simpl; [|done].
    intros [= <-]. apply registry_wf_same; [done|]. simpl.
    intros a. by rewrite notify_scan_is_Some.
  - intros [= <-]. apply registry_wf_same; [done|]. simpl.
    intros a' [ch Ha']. rewrite lookup_alter.
    destruct (decide (a = a')) as [<-|]; [|eauto]. rewrite Ha'. simpl. eauto.
Qed.

Lemma run_ops_wf os b b' :
  run_ops os b = Some b' → registry_wf b → registry_wf b'.
Proof.
  revert b. induction os as [|o os IH]; intros b; simpl.
  { by intros [= <-]. }
  destruct (step o b) as [b1|] eqn:Hs; simpl; [|done].
  intros Hrun Hwf. eapply IH; [done|]. by eapply step_wf.
Qed.

(** X1: in every state a run of the broker reaches from a new broker, each
    registered consumer carries the topic it is filed under, its wake
    channel exists, and no two registry entries share a channel. *)
Theorem X1_registry_well_formed (st : S) os b :
  run_ops os (newBroker st) = Some b →
  (∀ t i c, registered b t i c →
     topic c = t ∧ is_Some (chans b !! eventChan c))
  ∧ (∀ t1 i1 c1 t2 i2 c2,
       registered b t1 i1 c1 → registered b t2 i2 c2 →
       eventChan c1 = eventChan c2 → t1 = t2 ∧ i1 = i2).
Proof.
  intros Hrun. apply (run_ops_wf os (newBroker st) b Hrun), newBroker_wf.
Qed.

Lemma reachable_settled (st : S) os b :
  run_ops os (newBroker st) = Some b → settled b.
Proof.
  intros Hrun.
  destruct (run_ops_settled os (newBroker st) (newBroker_settled st))
    as (b' & Hrun' & Hs).
  rewrite Hrun in Hrun'. by injection Hrun' as <-.
Qed.

Lemma registered_elem_of b t c :
  c ∈ consumers_of b t ↔ ∃ i, registered b t i c.
Proof. apply list_elem_of_lookup. Qed.

(** X2: a publish on one topic leaves the wake channel of every consumer
    registered on another topic exactly as it was. *)
Theorem X2_publish_spares_other_topics (st : S) os b t t' i c val r b' :
  run_ops os (newBroker st) = Some b →
  registered b t' i c → t' ≠ t →
  Publish t val b = Some (r, b') →
  chans b' !! eventChan c = chans b !! eventChan c.
Proof.
  intros Hrun Hc Hne.
  destruct (run_ops_wf os _ b Hrun (newBroker_wf st)) as [_ Hwf2].
  destruct (reachable_settled st os b Hrun) as [Hm _].
  unfold Publish. destruct (Insert t val (store b)) as [[e|] st1]; simpl.
  - by intros [= _ <-].
  - rewrite NotifyConsumer_runs; [|simpl; by rewrite Hm]. simpl.
    intros [= _ <-]. simpl. apply notify_scan_elsewhere.
    intros c0 Hc0 Heq. apply registered_elem_of in Hc0 as [j Hj].
    destruct (Hwf2 _ _ _ _ _ _ Hj Hc Heq) as [<- _]. done.
Qed.

(** *** Counting parked receivers *)

Lemma parked_app h cs1 cs2 :
  parked h (cs1 ++ cs2) = parked h cs1 + parked h cs2.
Proof. apply sum_list_with_app. Qed.

Lemma parked_singleton h c :
  parked h [c] = from_option recvq 0 (h !! eventChan c).
Proof. unfold parked. simpl. lia. Qed.

Lemma parked_insert_elsewhere h cs a ch :
  (∀ c, c ∈ cs → eventChan c ≠ a) →
  parked (<[a := ch]> h) cs = parked h cs.
Proof.
  induction cs as [|c cs IH]; [done|]. intros Hne.
  change (c :: cs) with ([c] ++ cs). rewrite !parked_app.
  rewrite IH; [|intros c' Hc'; apply Hne; by right].
  rewrite !parked_singleton, lookup_insert_ne; [done|].
  intros Heq. by apply (Hne c); [left|].
Qed.

Lemma existsb_awaiting_none h cs :
  Forall (λ c, awaiting h c = false) cs → existsb (awaiting h) cs = false.
Proof. induction 1 as [|c cs Hc _ IH]; simpl; [done|]. by rewrite Hc. Qed.

Lemma registered_NoDup b t :
  registry_wf b → NoDup (eventChan <$> consumers_of b t).
Proof.
  intros [_ Hwf2]. apply NoDup_alt. intros i j a.
  rewrite !list_lookup_fmap.
  destruct (consumers_of b t !! i) as [c1|] eqn:H1; simpl; [|done].
  destruct (consumers_of b t !! j) as [c2|] eqn:H2; simpl; [|done].
  intros [= <-] [= Heq]. by destruct (Hwf2 t i c1 t j c2 H1 H2).
Qed.

(** X3: a notification takes exactly one parked receiver off the topic's
    channels when some consumer of the topic is awaiting, and none
    otherwise. *)
Theorem X3_notify_wakes_exactly_one (st : S) os b t ev b' :
  run_ops os (newBroker st) = Some b →
  NotifyConsumer t ev b = Some b' →
  parked (chans b') (consumers_of b t)
    + (if existsb (awaiting (chans b)) (consumers_of b t) then 1 else 0)
  = parked (chans b) (consumers_of b t).
Proof.
  intros Hrun.
  pose proof (run_ops_wf os _ b Hrun (newBroker_wf st)) as Hwf.
  destruct (reachable_settled st os b Hrun) as [Hm Hu].
  pose proof (registered_NoDup b t Hwf) as Hnd.
  rewrite NotifyConsumer_runs; [|by rewrite Hm]. intros [= <-]. simpl.
  destruct (notify_scan_cases ev (consumers_of b t) (chans b) Hu)
    as [(pre & c & post & ch & Hcs & Hpre & Hc & Hr & ->) | [Hall ->]].
  - rewrite Hcs in Hnd |- *.
    rewrite fmap_app, fmap_cons in Hnd.
    apply NoDup_app in Hnd as (_ & Hpre_ne & Hnd).
    apply NoDup_cons in Hnd as [Hpost_ne _].
    assert (∀ c', c' ∈ pre → eventChan c' ≠ eventChan c) as Hp1.
    { intros c' Hc' Heq. apply (Hpre_ne (eventChan c')).
      - by apply list_elem_of_fmap_2.
      - rewrite Heq. by left. }
    assert (∀ c', c' ∈ post → eventChan c' ≠ eventChan c) as Hp2.
    { intros c' Hc' Heq. apply Hpost_ne. rewrite <- Heq.
      by apply list_elem_of_fmap_2. }
    assert (awaiting (chans b) c = true) as Hc_aw.
    { unfold awaiting. rewrite Hc. by destruct (recvq ch); [lia|]. }
    rewrite existsb_app, (existsb_awaiting_none _ _ Hpre). simpl.
    rewrite Hc_aw. simpl.
    change (c :: post) with ([c] ++ post).
    rewrite !parked_app.
    rewrite (parked_insert_elsewhere (chans b) pre _ _ Hp1).
    rewrite (parked_insert_elsewhere (chans b) post _ _ Hp2).
    rewrite !parked_singleton, lookup_insert_eq, Hc. simpl. lia.
  - rewrite (existsb_awaiting_none _ _ Hall). lia.
Qed.

(** *** The lock *)

Lemma RLock_RUnlock_inv m m1 m2 :
  RLock m = Some m1 → RUnlock m1 = Some m2 → m2 = m.
Proof. destruct m as [|n|]; simpl; intros [= <-]; simpl; by intros [= <-]. Qed.

(** X4: Subscribe needs the lock free, a notification only needs it not
    write-held, and a Publish whose Insert fails and a Shutdown need
    nothing of it; whichever operation returns leaves the lock in the
    state it found. *)
Theorem X4_lock_discipline b :
  (∀ o b', step o b = Some b' → mu b' = mu b)
  ∧ (∀ t, is_Some (Subscribe t b) ↔ mu b = Unlocked)
  ∧ (∀ t ev, is_Some (NotifyConsumer t ev b) ↔ mu b ≠ WLocked)
  ∧ (∀ t val, is_Some (Publish t val b) ↔
       mu b ≠ WLocked ∨ is_Some (Insert t val (store b)).1).
Proof.
  assert (∀ t ev b0 b', NotifyConsumer t ev b0 = Some b' → mu b' = mu b0)
    as Hnotify.
  { intros t ev b0 b'. unfold NotifyConsumer.
    destruct (RLock (mu b0)) as [m1|] eqn:H1; simpl; [|done].
    destruct (RUnlock m1) as [m2|] eqn:H2; simpl; [|done].
    intros [= <-]. simpl. by eapply RLock_RUnlock_inv. }
  split_and!.
  - intros [t val|t| |t ev|a] b'; simpl.
    + unfold Publish. destruct (Insert t val (store b)) as [[e|] st]; simpl.
      * by intros [= <-].
      * destruct (NotifyConsumer t eventTypePublish (set_store st b))
          as [b1|] eqn:Hn; simpl; [|done].
        intros [= <-]. by apply Hnotify in Hn.
    + unfold Subscribe. destruct (mu b); simpl; [|done..]. by intros [= <-].
    + unfold Shutdown. destruct (Close (store b)). by intros [= <-].
    + apply Hnotify.
    + by intros [= <-].
  - intros t. unfold Subscribe. destruct (mu b); simpl.
    + split; [done | eauto].
    + split; [by intros [? ?] | done].
    + split; [by intros [? ?] | done].
  - intros t ev. unfold NotifyConsumer. destruct (mu b) as [|n|]; simpl.
    + split; [done | eauto].
    + split; [done | eauto].
    + split; [by intros [? ?] | done].
  - intros t val. unfold Publish.
    destruct (Insert t val (store b)) as [[e|] st]; simpl.
    + split; [eauto | eauto].
    + unfold NotifyConsumer. simpl. destruct (mu b) as [|n|]; simpl.
      * split; [by left | eauto].
      * split; [by left | eauto].
      * split; [by intros [? ?] | intros [? | [? ?]]; done].
Qed.

(** X5: what each operation leaves alone.  Only Subscribe changes the
    registry, and it touches neither the store nor any channel that
    exists; a notification never touches the store; Shutdown touches
    neither registry nor channels. *)
Theorem X5_footprints o b b' :
  step o b = Some b' →
  match o with
  | opPublish _ _ => consumers b' = consumers b
  | opSubscribe _ =>
      store b' = store b
      ∧ ∀ a ch, chans b !! a = Some ch → chans b' !! a = Some ch
  | opShutdown => consumers b' = consumers b ∧ chans b' = chans b
  | opNotify _ _ => consumers b' = consumers b ∧ store b' = store b
  | opAwait _ => consumers b' = consumers b ∧ store b' = store b
  end.
Proof.
  destruct o as [t val|t| |t ev|a]; simpl.
  - unfold Publish, NotifyConsumer.
    destruct (Insert t val (store b)) as [[e|] st]; simpl.
    + by intros [= <-].
    + destruct (RLock (mu b)) as [m1|]; simpl; [|done].
      destruct (RUnlock m1) as [m2|]; simpl; [|done]. by intros [= <-].
  - unfold Subscribe. destruct (Lock (mu b)) as [m1|]; simpl; [|done].
    destruct (Unlock m1) as [m2|]; simpl; [|done]. intros [= <-].
    split; [done|]. simpl. intros a ch Ha.
    rewrite lookup_insert_ne; [done|]. intros <-.
    assert (fresh (dom (chans b)) ∈ dom (chans b)) as Hin
      by (apply elem_of_dom; eauto).
    by apply is_fresh in Hin.
  - unfold Shutdown. destruct (Close (store b)). by intros [= <-].
  - unfold NotifyConsumer. destruct (RLock (mu b)) as [m1|]; simpl; [|done].
    destruct (RUnlock m1) as [m2|]; simpl; [|done]. by intros [= <-].
  - by intros [= <-].
Qed.

(** X6: a publish on a topic nobody has subscribed to, be the topic
    missing from the registry or its slice empty, comes down to the
    store's Insert: it returns what Insert returns and changes nothing but
    the store. *)
Theorem X6_publish_without_subscribers b t val :
  consumers_of b t = [] → mu b ≠ WLocked →
  Publish t val b =
    Some ((Insert t val (store b)).1, set_store (Insert t val (store b)).2 b).
Proof.
  intros Hcs Hm. unfold Publish.
  destruct (Insert t val (store b)) as [[e|] st']; [done|]. simpl.
  rewrite NotifyConsumer_runs; [|done]. simpl.
  change (consumers_of (set_store st' b) t) with (consumers_of b t).
  rewrite Hcs. simpl. by destruct b.
Qed.

End BrokerRuns.

(** * Further properties of the handlers *)

Section DisconnectFacts.

Lemma append_assoc (s1 s2 s3 : string) :
  (s1 +:+ s2) +:+ s3 = s1 +:+ (s2 +:+ s3).
Proof.
  induction s1 as [|a s1 IH]; [reflexivity|].
  change (String a ((s1 +:+ s2) +:+ s3) = String a (s1 +:+ (s2 +:+ s3))).
  by rewrite IH.
Qed.

Lemma occurs_in_trans (s1 s2 s3 : string) :
  occurs_in s1 s2 → occurs_in s2 s3 → occurs_in s1 s3.
Proof.
  intros (pre & post & ->) (pre' & post' & ->).
  exists (pre' +:+ pre), (post +:+ post').
  by rewrite !append_assoc.
Qed.

(** X7: text put around the message of a disconnect error, as wrapping
    with more context does, leaves it a disconnect; the nil error is never
    one. *)
Theorem X7_disconnect_survives_context (e e' : goerror) :
  isDisconnect None = false
  ∧ (isDisconnect (Some e) = true →
     occurs_in (Error e) (Error e') →
     isDisconnect (Some e') = true).
Proof.
  split; [done|]. rewrite !isDisconnect_occurs.
  intros (e0 & [= <-] & Hocc) Hin. exists e'. split; [done|].
  destruct Hocc as [H1 | H2]; [left | right]; by eapply occurs_in_trans.
Qed.

End DisconnectFacts.

Section LoopFacts.
Import Server.
Local Open Scope nat_scope.
Context {W Ctx : Type} `{!brokerer W} `{!consumerMethods W Ctx}.
Implicit Types (st : hstate W) (c : consumer) (ctx : Ctx) (cmd : string)
  (rd : read_result) (reads rest : list read_result) (e : goerror) (w : W)
  (es : list effect).

Lemma iteration_shape c ctx rd st :
  ∃ k w es, iteration c ctx rd st = (k, after st w es) ∧ turn_ok rd st k w es.
Proof.
  destruct rd as [cmd err]. unfold turn_ok.
  destruct (isDisconnect err) eqn:Hd.
  { destruct (Nack c (world st)) as [nerr w1] eqn:Hn.
    rewrite (iteration_disconnect c ctx cmd err st nerr w1 Hd Hn).
    eexists _, _, _. split; [reflexivity|].
    destruct nerr; simpl; split_and!; try done; auto with lia;
      repeat constructor; done. }
  destruct err as [e|].
  { rewrite (iteration_decode_error c ctx cmd e st Hd).
    eexists _, _, _. split; [reflexivity|]. simpl.
    split_and!; try done; auto with lia. }
  destruct (String.eqb cmd CmdInit) eqn:E1.
  { apply String.eqb_eq in E1 as ->.
    destruct (Next c ctx (world st)) as [[msg nerr] w2] eqn:Hn.
    rewrite (iteration_init c ctx st msg nerr w2 Hn).
    destruct (errors_Is nerr (Error errRequestCancelled)); [|destruct nerr];
      (eexists _, _, _; split; [reflexivity|]); simpl;
      split_and!; try done; auto with lia; repeat constructor; done. }
  destruct (String.eqb cmd CmdAck) eqn:E2.
  { apply String.eqb_eq in E2 as ->.
    destruct (Ack c (world st)) as [[e|] w1] eqn:Ha.
    { rewrite (iteration_ack_failed c ctx st e w1 Ha).
      eexists _, _, _. split; [reflexivity|]. simpl.
      split_and!; try done; auto with lia; repeat constructor; done. }
    destruct (Next c ctx w1) as [[msg nerr] w2] eqn:Hn.
    rewrite (iteration_ack c ctx st w1 msg nerr w2 Ha Hn).
    destruct (errors_Is nerr (Error errRequestCancelled)); [|destruct nerr];
      (eexists _, _, _; split; [reflexivity|]); simpl;
      split_and!; try done; auto with lia; repeat constructor; done. }
  destruct (String.eqb cmd CmdNack) eqn:E3.
  { apply String.eqb_eq in E3 as ->.
    destruct (Nack c (world st)) as [[e|] w1] eqn:Ha.
    { rewrite (iteration_nack_failed c ctx st e w1 Ha).
      eexists _, _, _. split; [reflexivity|]. simpl.
      split_and!; try done; auto with lia; repeat constructor; done. }
    destruct (Next c ctx w1) as [[msg nerr] w2] eqn:Hn.
    rewrite (iteration_nack c ctx st w1 msg nerr w2 Ha Hn).
    destruct (errors_Is nerr (Error errRequestCancelled)); [|destruct nerr];
      (eexists _, _, _; split; [reflexivity|]); simpl;
      split_and!; try done; auto with lia; repeat constructor; done. }
  pose proof E1 as N1. pose proof E2 as N2. pose proof E3 as N3.
  apply String.eqb_neq in N1, N2, N3.
  rewrite (iteration_unrecognised c ctx cmd st N1 N2 N3).
  eexists _, _, _. split; [reflexivity|]. simpl.
  split_and!; try done; auto with lia.
  intros _. split_and!; try done.
  unfold calls_of_command. by rewrite E1, E2, E3.
Qed.

Ltac hsimpl :=
  repeat progress
    (unfold publish, subscribe, hbind, logf, WriteHeader, respondError,
       respondMsg, invoke, emit, hret, after; simpl);
  rewrite <- ?app_assoc; simpl.

Lemma after_after st w1 es1 w2 es2 :
  after (after st w1 es1) w2 es2 = after st w2 (es1 ++ es2).
Proof. unfold after. simpl. by rewrite app_assoc. Qed.

Lemma after_nil st : after st (world st) [] = st.
Proof. unfold after. rewrite app_nil_r. by destruct st. Qed.

(** The whole loop, by induction on the reads it is fed. *)
Lemma command_loop_shape c ctx reads st :
  ∃ o w es,
    command_loop c ctx reads st = (o, after st w es)
    ∧ omap status_of es = []
    ∧ List.length (frames es) ≤ List.length reads
    ∧ Forall (λ cl, cl ≠ callSubscribe ∧ cl ≠ callPublish) (calls es)
    ∧ (calls es = [] → w = world st)
    ∧ (o = Decoding →
         List.length (frames es) = List.length reads
         ∧ Forall (λ rd, rd.2 = None) reads
         ∧ calls es = flat_map (λ rd, calls_of_command rd.1) reads).
Proof.
  revert st. induction reads as [|rd reads IH]; intros st.
  { exists Decoding, (world st), []. rewrite after_nil.
    split; [done|]. by split_and!. }
  destruct (iteration_shape c ctx rd st)
    as (k & w1 & es1 & Hi & Hs1 & Hf1 & Hc1 & Hw1 & Hk1).
  simpl. unfold hbind. rewrite Hi. destruct k.
  - destruct (IH (after st w1 es1))
      as (o & w2 & es2 & -> & Hs2 & Hf2 & Hc2 & Hw2 & Ho2).
    destruct (Hk1 eq_refl) as (Hf1' & Hrd & Hcalls).
    exists o, w2, (es1 ++ es2). rewrite after_after. split; [done|].
    unfold frames, calls in *. rewrite !omap_app, !length_app.
    split_and!.
    + by rewrite Hs1, Hs2.
    + lia.
    + by apply Forall_app.
    + intros [H1 H2]%app_eq_nil. rewrite (Hw2 H2). simpl. by apply Hw1.
    + intros Ho. destruct (Ho2 Ho) as (? & ? & ->).
      split_and!; [lia | by constructor | by rewrite Hcalls].
  - exists Returned, w1, es1. split; [done|].
    split_and!; try done. lia.
Qed.

(** X8: the loop answers in step with the client.  It never writes more
    frames than it has read commands; and while it is still reading, every
    read decoded without error and got exactly one frame. *)
Theorem X8_one_frame_per_command c ctx reads st :
  ∃ o w es,
    command_loop c ctx reads st = (o, after st w es)
    ∧ List.length (frames es) ≤ List.length reads
    ∧ (o = Decoding →
         List.length (frames es) = List.length reads
         ∧ Forall (λ rd, rd.2 = None) reads).
Proof.
  destruct (command_loop_shape c ctx reads st)
    as (o & w & es & Hl & _ & Hf & _ & _ & Ho).
  exists o, w, es. split_and!; [done | done |].
  intros H. by destruct (Ho H) as (? & ? & _).
Qed.

(** X9: the loop calls nothing but Next, Ack and Nack, and the world
    behind the consumer changes only through those calls; while it is
    still reading, the calls made are exactly Next for each INIT, Ack then
    Next for each ACK, Nack then Next for each NACK, in the order of the
    commands. *)
Theorem X9_calls_follow_commands c ctx reads st :
  ∃ o w es,
    command_loop c ctx reads st = (o, after st w es)
    ∧ Forall (λ cl, cl = callNext ∨ cl = callAck ∨ cl = callNack) (calls es)
    ∧ (calls es = [] → w = world st)
    ∧ (o = Decoding →
         calls es = flat_map (λ rd, calls_of_command rd.1) reads).
Proof.
  destruct (command_loop_shape c ctx reads st)
    as (o & w & es & Hl & _ & _ & Hc & Hw & Ho).
  exists o, w, es. split_and!; [done | | done |].
  - eapply Forall_impl; [exact Hc|]. intros [] [? ?]; auto; done.
  - intros H. by destruct (Ho H) as (_ & _ & ?).
Qed.

(** X10: reads that come after the one on which the handler returned are
    never looked at, and a loop that is still reading takes up further
    reads where it stands. *)
Theorem X10_command_loop_app c ctx reads rest st :
  command_loop c ctx (reads ++ rest) st =
    match command_loop c ctx reads st with
    | (Returned, st') => (Returned, st')
    | (Decoding, st') => command_loop c ctx rest st'
    end.
Proof.
  revert st. induction reads as [|rd reads IH]; intros st; [done|].
  simpl. unfold hbind. destruct (iteration c ctx rd st) as [[] st1]; [|done].
  apply IH.
Qed.

(** X11: commands the switch has no arm for never reach the consumer.
    Each is answered by one "unrecognised command received" frame, the
    world stays as it is, and the loop keeps reading. *)
Theorem X11_unrecognised_commands_only reads c ctx st :
  Forall (λ rd, rd.2 = None ∧ recognised rd.1 = false) reads →
  command_loop c ctx reads st =
    (Decoding,
     after st (world st)
       (flat_map
          (λ _, [effLog Warn None "unrecognised command received";
                 effWrite (errorFrame "unrecognised command received")])
          reads)).
Proof.
  intros Hall. revert st.
  induction Hall as [|[cmd err] reads [Herr Hrec] _ IH]; intros st.
  { simpl. by rewrite after_nil. }
  simpl in Herr, Hrec. subst err. unfold recognised in Hrec.
  apply orb_false_iff in Hrec as [[H1 H2]%orb_false_iff H3].
  apply String.eqb_neq in H1, H2, H3.
  rewrite (command_loop_continue c ctx _ reads st _
             (iteration_unrecognised c ctx cmd st H1 H2 H3)).
  rewrite IH, after_after. done.
Qed.

(** X12: the publish handler sets the status exactly once and before
    anything is written to the body.  It reaches the broker only when the
    route has a topic and the body was read, with that topic and that
    body, and calls nothing else; otherwise the world stays as it is. *)
Theorem X12_publish_header_then_body (r : request Ctx) w :
  let st' := (run (publish r) w).2 in
  (∃ pre n post,
      effects st' = pre ++ effHeader n :: post
      ∧ frames pre = [] ∧ omap status_of (pre ++ post) = [])
  ∧ (calls (effects st'), world st') =
      match Vars r !! topicVarKey, (ReadAll r).2 with
      | Some t, None => ([callPublish], (Publish t (ReadAll r).1 w).2)
      | _, _ => ([], w)
      end.
Proof.
  unfold run, publish.
  destruct (Vars r !! topicVarKey) as [t|].
  - destruct (ReadAll r) as [body [e|]].
    + split; [|done]. by eexists [_; _], _, _.
    + hsimpl. destruct (Publish t body w) as [[e|] w'] eqn:Hp; simpl.
      * split; [|done]. by eexists [_; _; _], _, _.
      * split; [|done]. by eexists [_; _], _, _.
  - split; [|done]. by eexists [_], _, _.
Qed.

(** X13: without a topic in the route the subscribe handler answers 400
    with the "invalid topic value" error object and returns: it does not
    subscribe and reads no command.  With a topic it subscribes once,
    before anything else is called, never sets a status, and runs the
    loop on the consumer it got with the context of the request. *)
Theorem X13_subscribe_entry (r : request Ctx) reads w :
  match Vars r !! topicVarKey with
  | None =>
      run (subscribe r reads) w =
        (Returned,
         {| world := w;
            effects := [effLog Debug None "invalid topic in path";
                        effHeader 400;
                        effWrite (errorFrame "invalid topic value")] |})
  | Some t =>
      let '(c, w1) := Subscribe t w in
      let entry := [effLog Info None "subscribing to topic";
                    effCall callSubscribe] in
      run (subscribe r reads) w =
        command_loop c (Context r) reads {| world := w1; effects := entry |}
      ∧ ∃ later : list call,
          calls (effects (run (subscribe r reads) w).2) = callSubscribe :: later
          ∧ Forall (λ cl, cl ≠ callSubscribe ∧ cl ≠ callPublish) later
          ∧ status (effects (run (subscribe r reads) w).2) = None
  end.
Proof.
  unfold run, subscribe. destruct (Vars r !! topicVarKey) as [t|]; [|done].
  hsimpl. destruct (Subscribe t w) as [c w1]. split; [done|].
  destruct (command_loop_shape c (Context r) reads
              {| world := w1;
                 effects := [effLog Info None "subscribing to topic";
                             effCall callSubscribe] |})
    as (o & w2 & es & -> & Hs & _ & Hc & _). simpl.
  exists (calls es). split_and!; [done | done |].
  unfold status. change (head (omap status_of es) = None). by rewrite Hs.
Qed.

End LoopFacts.

(** *** The further properties on the test doubles *)

Section MoreExamples.
Import Broker Server Mock.

Lemma X1_registry_well_formed_witness :
  run_ops [opSubscribe "orders"; opSubscribe "orders"; opAwait 1]
    (newBroker emptyStore) = Some twoConsumers
  ∧ (∀ t i c, registered twoConsumers t i c →
       topic c = t ∧ is_Some (chans twoConsumers !! eventChan c))
  ∧ (∀ t1 i1 c1 t2 i2 c2,
       registered twoConsumers t1 i1 c1 → registered twoConsumers t2 i2 c2 →
       eventChan c1 = eventChan c2 → t1 = t2 ∧ i1 = i2).
Proof.
  split; [reflexivity|].
  apply (X1_registry_well_formed emptyStore
           [opSubscribe "orders"; opSubscribe "orders"; opAwait 1]
           twoConsumers).
  reflexivity.
Defined.

Lemma X2_publish_spares_other_topics_witness :
  run_ops [opSubscribe "orders"; opSubscribe "billing"; opAwait 1]
    (newBroker emptyStore) = Some twoTopics
  ∧ registered twoTopics "billing" 0
      {| id := 1; topic := "billing"; eventChan := 1 |}
  ∧ "billing" ≠ "orders"
  ∧ ∃ r b', Broker.Publish "orders" [] twoTopics = Some (r, b')
          ∧ chans b' !! 1 = chans twoTopics !! 1.
Proof.
  split; [reflexivity|]. split; [reflexivity|]. split; [discriminate|].
  eexists _, _. split; [reflexivity|].
  eapply (X2_publish_spares_other_topics emptyStore
           [opSubscribe "orders"; opSubscribe "billing"; opAwait 1]
           twoTopics "orders" "billing" 0
           {| id := 1; topic := "billing"; eventChan := 1 |} [] _ _);
    [reflexivity | reflexivity | discriminate | reflexivity].
Defined.

Lemma X3_notify_wakes_exactly_one_witness :
  run_ops [opSubscribe "orders"; opSubscribe "orders"; opAwait 1]
    (newBroker emptyStore) = Some twoConsumers
  ∧ ∃ b', NotifyConsumer "orders" eventTypePublish twoConsumers = Some b'
        ∧ parked (chans b') (consumers_of twoConsumers "orders")
            + (if existsb (awaiting (chans twoConsumers))
                    (consumers_of twoConsumers "orders")
               then 1 else 0)
          = parked (chans twoConsumers) (consumers_of twoConsumers "orders").
Proof.
  split; [reflexivity|]. eexists. split; [reflexivity|].
  eapply (X3_notify_wakes_exactly_one emptyStore
           [opSubscribe "orders"; opSubscribe "orders"; opAwait 1]
           twoConsumers "orders" eventTypePublish _);
    reflexivity.
Defined.

Lemma X4_lock_discipline_witness :
  ∃ b', step (opNotify "orders" eventTypePublish) twoConsumers = Some b'
      ∧ mu b' = mu twoConsumers.
Proof.
  eexists. split; [reflexivity|].
  apply (proj1 (X4_lock_discipline twoConsumers)
           (opNotify "orders" eventTypePublish)).
  reflexivity.
Defined.

Lemma X5_footprints_witness :
  ∃ b', step (opSubscribe "billing") twoConsumers = Some b'
      ∧ store b' = store twoConsumers
      ∧ ∀ a ch, chans twoConsumers !! a = Some ch → chans b' !! a = Some ch.
Proof.
  eexists. split; [reflexivity|].
  apply (X5_footprints (opSubscribe "billing") twoConsumers). reflexivity.
Defined.

Lemma X6_publish_without_subscribers_witness :
  consumers_of (newBroker emptyStore) "test_topic" = []
  ∧ mu (newBroker emptyStore) ≠ WLocked
  ∧ Broker.Publish "test_topic" [Byte.x61] (newBroker emptyStore)
    = Some (None,
            newBroker {| inserted := [("test_topic", [Byte.x61])];
                         failing := None |}).
Proof.
  split; [reflexivity|]. split; [discriminate|].
  pose proof (X6_publish_without_subscribers (newBroker emptyStore)
                "test_topic" [Byte.x61]) as H.
  exact (H eq_refl ltac:(discriminate)).
Defined.

Lemma X7_disconnect_survives_context_witness :
  isDisconnect (Some peerGone) = true
  ∧ occurs_in (Error peerGone)
      (Error (wrapError "read body: http2: client disconnected (retry 1)"
                peerGone))
  ∧ isDisconnect
      (Some (wrapError "read body: http2: client disconnected (retry 1)"
               peerGone)) = true.
Proof.
  assert (occurs_in (Error peerGone)
            (Error (wrapError
                      "read body: http2: client disconnected (retry 1)"
                      peerGone))) as Hocc.
  { exists "read body: ", " (retry 1)". reflexivity. }
  split; [reflexivity|]. split; [exact Hocc|].
  apply (proj2 (X7_disconnect_survives_context peerGone _));
    [reflexivity | exact Hocc].
Defined.

Lemma X11_unrecognised_commands_only_witness :
  run (command_loop theConsumer () [("PING", None); ("", None)]) stockedWorld
  = (Decoding,
     {| world := stockedWorld;
        effects :=
          [effLog Warn None "unrecognised command received";
           effWrite (errorFrame "unrecognised command received");
           effLog Warn None "unrecognised command received";
           effWrite (errorFrame "unrecognised command received")] |}).
Proof.
  apply (X11_unrecognised_commands_only [("PING", None); ("", None)]
           theConsumer () {| world := stockedWorld; effects := [] |}).
  repeat constructor.
Defined.

Lemma X8_one_frame_per_command_witness :
  ∃ o w es,
    run (command_loop theConsumer () [("INIT", None); ("PING", None)])
      stockedWorld
    = (o, {| world := w; effects := es |})
    ∧ (List.length (frames es) ≤ 2)%nat
    ∧ (o = Decoding →
         List.length (frames es) = 2%nat
         ∧ Forall (λ rd : read_result, rd.2 = None)
             [("INIT", None); ("PING", None)]).
Proof.
  exact (X8_one_frame_per_command theConsumer ()
           [("INIT", None); ("PING", None)]
           {| world := stockedWorld; effects := [] |}).
Defined.

Lemma X9_calls_follow_commands_witness :
  ∃ o w es,
    run (command_loop theConsumer () [("NACK", None); ("PING", None)])
      stockedWorld
    = (o, {| world := w; effects := es |})
    ∧ Forall (λ cl, cl = callNext ∨ cl = callAck ∨ cl = callNack) (calls es)
    ∧ (calls es = [] → w = stockedWorld)
    ∧ (o = Decoding → calls es = [callNack; callNext]).
Proof.
  exact (X9_calls_follow_commands theConsumer ()
           [("NACK", None); ("PING", None)]
           {| world := stockedWorld; effects := [] |}).
Defined.

End MoreExamples.
